(** * Employee attendance store: open-addressing hash table and queries

    A shallow embedding of [utils/hashing.py], [utils/sorting.py] and of the
    record processing and dynamic search of [app.py], with the properties of
    the hash table (probing, replacement, uniqueness of ids, rebuild) and of
    the query layer proved over it.

    Python integers are unbounded: they are [Z].  Python's [%] takes the sign
    of the divisor, as [Z.modulo] does.  A Python list is a [list], indexed
    the way Python indexes it (negative indices count from the end, an index
    out of range raises [IndexError]).  Exceptions are values of [exn] in the
    result type [res]. *)

From Stdlib Require Import ZArith Lia Bool Sorting.Sorted Sorting.Permutation.
From Stdlib Require Import Ascii DecimalString.
From stdpp Require Import base list gmap strings.

Local Open Scope Z_scope.

(** ** Exceptions *)

Inductive exn : Type :=
  | ZeroDivisionError
  | IndexError
  | OverflowError
  | TypeError
  | ValueError.

Inductive res (A : Type) : Type :=
  | Ok (a : A)
  | Raise (e : exn).
Arguments Ok {A} a.
Arguments Raise {A} e.

Definition bind {A B : Type} (m : res A) (k : A -> res B) : res B :=
  match m with
  | Ok a => k a
  | Raise e => Raise e
  end.

Notation "'let*' x ':=' m 'in' k" := (bind m (fun x => k))
  (at level 10, x pattern, m at level 100, k at level 200).

(** ** Python built-ins used by the code *)

(** [a % b] *)
Definition py_mod (a b : Z) : res Z :=
  if b =? 0 then Raise ZeroDivisionError else Ok (a mod b).

(** [range(n)] *)
Definition range (n : Z) : list Z := map Z.of_nat (seq 0 (Z.to_nat n)).

(** The position a Python index denotes in a list of length [len]. *)
Definition py_index (len : nat) (i : Z) : option nat :=
  let j := if i <? 0 then i + Z.of_nat len else i in
  if (0 <=? j) && (j <? Z.of_nat len) then Some (Z.to_nat j) else None.

(** [l[i]] *)
Definition py_getitem {A : Type} (l : list A) (i : Z) : res A :=
  match py_index (length l) i with
  | Some j => match l !! j with Some x => Ok x | None => Raise IndexError end
  | None => Raise IndexError
  end.

(** [l[i] = x] *)
Definition py_setitem {A : Type} (l : list A) (i : Z) (x : A) : res (list A) :=
  match py_index (length l) i with
  | Some j => Ok (<[j := x]> l)
  | None => Raise IndexError
  end.

(** ** Records

    The dicts stored in the table are the ones [process_records] builds, with
    the seven keys below.  [attendance_percentage] is a float rounded to one
    decimal; it is kept as the number of tenths of a percent, which orders
    and compares the way the rounded floats do. *)

Record Employee : Type := mkEmployee {
  id : Z;
  name : string;
  department : string;
  attendance : Z;
  total_days : Z;
  attendance_percentage : Z;
  hash_index : Z
}.

(** ** utils/hashing.py *)

Module HashTable.

Record t : Type := mk {
  size : Z;
  table : list (option Employee)
}.

(** [HashTable(size)] *)
Definition new (size : Z) : t :=
  {| size := size; table := replicate (Z.to_nat size) None |}.

Definition hash_function (self : t) (emp_id : Z) : res Z :=
  py_mod emp_id (size self).

(** The [for i in range(self.size)] loop of [insert], over the values of
    [i] still to come; [None] when the loop runs to its end.  The ids are
    integers, so [int(record["id"])] and [int(slot.get("id"))] are the ids
    themselves; [record.copy()] is the record, a value. *)
Fixpoint insert_loop (self : t) (record : Employee) (emp_id idx : Z)
    (ixs : list Z) : res (option (t * Z)) :=
  match ixs with
  | [] => Ok None
  | i :: ixs' =>
      let* pos := py_mod (idx + i) (size self) in
      let* slot := py_getitem (table self) pos in
      match slot with
      | None =>
          let* tbl := py_setitem (table self) pos (Some record) in
          Ok (Some ({| size := size self; table := tbl |}, pos))
      | Some s =>
          if id s =? emp_id then
            let* tbl := py_setitem (table self) pos (Some record) in
            Ok (Some ({| size := size self; table := tbl |}, pos))
          else insert_loop self record emp_id idx ixs'
      end
  end.

Definition insert (self : t) (record : Employee) : res (t * Z) :=
  let emp_id := id record in
  let* idx := hash_function self emp_id in
  let* r := insert_loop self record emp_id idx (range (size self)) in
  match r with
  | Some out => Ok out
  | None =>
      let* tbl := py_setitem (table self) idx (Some record) in
      Ok ({| size := size self; table := tbl |}, idx)
  end.

(** The loop of [get]; [trace] is the list built so far. *)
Fixpoint get_loop (self : t) (emp_id idx : Z) (ixs : list Z)
    (trace : list (Z * option Employee))
    : res (option Employee * list (Z * option Employee)) :=
  match ixs with
  | [] => Ok (None, trace)
  | i :: ixs' =>
      let* pos := py_mod (idx + i) (size self) in
      let* entry := py_getitem (table self) pos in
      let trace := trace ++ [(pos, entry)] in
      let* slot := py_getitem (table self) pos in
      match slot with
      | None => Ok (None, trace)
      | Some s =>
          if id s =? emp_id then Ok (Some s, trace)
          else get_loop self emp_id idx ixs' trace
      end
  end.

Definition get (self : t) (emp_id : Z)
    : res (option Employee * list (Z * option Employee)) :=
  let* idx := hash_function self emp_id in
  get_loop self emp_id idx (range (size self)) [].

Definition flatten (self : t) : list Employee :=
  omap (fun slot => slot) (table self).

Definition clear (self : t) : t :=
  {| size := size self; table := replicate (Z.to_nat (size self)) None |}.

(** An entry of [as_list]: the dict with the keys [index], [id], [name] and
    [attendance_percentage]. *)
Record Summary : Type := mkSummary {
  summary_index : Z;
  summary_id : Z;
  summary_name : string;
  summary_percentage : Z
}.

(** The loop of [as_list] over [enumerate(self.table)], from the index [i]
    on. *)
Fixpoint as_list_from (i : Z) (slots : list (option Employee))
    : list (option Summary) :=
  match slots with
  | [] => []
  | slot :: rest =>
      match slot with
      | None => None
      | Some s =>
          Some {| summary_index := i; summary_id := id s; summary_name := name s;
                  summary_percentage := attendance_percentage s |}
      end :: as_list_from (i + 1) rest
  end.

Definition as_list (self : t) : list (option Summary) :=
  as_list_from 0 (table self).

End HashTable.

(** The [for r in records] loop of [rebuild_hashtable_from_list]. *)
Fixpoint insert_all (h : HashTable.t) (records : list Employee) : res HashTable.t :=
  match records with
  | [] => Ok h
  | r :: rs =>
      let* out := HashTable.insert h r in
      insert_all (fst out) rs
  end.

Definition rebuild_hashtable_from_list (hash_table : HashTable.t)
    (records : list Employee) : res HashTable.t :=
  insert_all (HashTable.clear hash_table) records.

(** ** utils/sorting.py *)

(** Python's [sorted(l, key=key, reverse=reverse)].  The built-in sort is
    stable and compares keys with [<] only; it is modelled by the insertion
    sort below.  With [reverse=True] the list is reversed, sorted and
    reversed again, which is how the built-in keeps equal keys in their
    original order. *)
Fixpoint insert_by {A : Type} (key : A -> Z) (x : A) (l : list A) : list A :=
  match l with
  | [] => [x]
  | y :: l' => if key y <? key x then y :: insert_by key x l' else x :: y :: l'
  end.

Fixpoint stable_sort {A : Type} (key : A -> Z) (l : list A) : list A :=
  match l with
  | [] => []
  | x :: l' => insert_by key x (stable_sort key l')
  end.

Definition py_sorted {A : Type} (l : list A) (key : A -> Z) (reverse : bool) : list A :=
  if reverse then rev (stable_sort key (rev l)) else stable_sort key l.

Definition sort_employees_by_percentage (records : list Employee) (order : string)
    : list Employee :=
  let reverse := String.eqb order "desc" in
  py_sorted records attendance_percentage reverse.

(** ** Python strings

    A Python [str] is represented by its UTF-8 encoding: equality of
    strings and the test [q in s] are then equality and occurrence of byte
    sequences.  The methods [lower()] and [strip()] and the conversion
    [int()] of a string consult the Unicode character database (the letter
    case, the white space and the decimal digits of every script), which is
    no part of this repository.  What they do on the strings made of ASCII
    characters only is written out first, as a reference: [lower()] changes
    the letters A to Z; [strip()] removes the characters 9 to 13 and 28 to
    32; [int()] skips the characters 9 to 13 and 32 only, reads an optional
    sign and decimal digits with single underscores between them, and
    refuses more than 4300 digits. *)

Definition lower_char (c : ascii) : ascii :=
  let n := nat_of_ascii c in
  if (65 <=? n)%nat && (n <=? 90)%nat then ascii_of_nat (n + 32) else c.

Fixpoint ascii_lower (s : string) : string :=
  match s with
  | EmptyString => EmptyString
  | String c s' => String (lower_char c) (ascii_lower s')
  end.

Definition is_space (c : ascii) : bool :=
  let n := nat_of_ascii c in
  (9 <=? n)%nat && (n <=? 13)%nat || (28 <=? n)%nat && (n <=? 32)%nat.

Definition is_int_space (c : ascii) : bool :=
  let n := nat_of_ascii c in
  (9 <=? n)%nat && (n <=? 13)%nat || (n =? 32)%nat.

Fixpoint lstrip (space : ascii -> bool) (s : string) : string :=
  match s with
  | EmptyString => EmptyString
  | String c s' => if space c then lstrip space s' else s
  end.

Fixpoint rstrip (space : ascii -> bool) (s : string) : string :=
  match s with
  | EmptyString => EmptyString
  | String c s' =>
      match rstrip space s' with
      | EmptyString => if space c then EmptyString else String c EmptyString
      | t => String c t
      end
  end.

Definition ascii_strip (s : string) : string := rstrip is_space (lstrip is_space s).

Definition digit_of (c : ascii) : option Z :=
  let n := nat_of_ascii c in
  if (48 <=? n)%nat && (n <=? 57)%nat then Some (Z.of_nat n - 48) else None.

(** The digits of a decimal literal: single underscores are allowed between
    digits.  [after_digit] tells whether the character before was a digit. *)
Fixpoint parse_digits (acc : Z) (after_digit : bool) (s : string) : option Z :=
  match s with
  | EmptyString => if after_digit then Some acc else None
  | String c s' =>
      if Ascii.eqb c "_" then
        if after_digit then parse_digits acc false s' else None
      else
        match digit_of c with
        | Some d => parse_digits (10 * acc + d) true s'
        | None => None
        end
  end.

Fixpoint count_digits (s : string) : nat :=
  match s with
  | EmptyString => 0
  | String c s' =>
      match digit_of c with
      | Some _ => S (count_digits s')
      | None => count_digits s'
      end
  end.

Definition ascii_int_of_string (s : string) : option Z :=
  let body := rstrip is_int_space (lstrip is_int_space s) in
  if (4300 <? count_digits body)%nat then None
  else
    match body with
    | String "+" s' => parse_digits 0 false s'
    | String "-" s' => option_map Z.opp (parse_digits 0 false s')
    | s' => parse_digits 0 false s'
    end.

(** All the characters of [s] are ASCII. *)
Fixpoint is_ascii (s : string) : bool :=
  match s with
  | EmptyString => true
  | String c s' => (nat_of_ascii c <? 128)%nat && is_ascii s'
  end.

(** The three built-ins.  The code is embedded, and every property proved,
    for all the instances of this class: the functions that agree with the
    reference on ASCII strings, as Python's do, and are free on the other
    strings. *)
Class Text : Type := {
  (** [s.lower()] *)
  lower : string -> string;
  (** [s.strip()] *)
  strip : string -> string;
  (** [int(s)] for a string: [None] when it raises [ValueError] *)
  int_of_string : string -> option Z;
  lower_ascii : forall s, is_ascii s = true -> lower s = ascii_lower s;
  strip_ascii : forall s, is_ascii s = true -> strip s = ascii_strip s;
  int_ascii : forall s,
    is_ascii s = true -> (String.length s <=? 4300)%nat = true ->
    int_of_string s = ascii_int_of_string s
}.

Fixpoint starts_with (q s : string) : bool :=
  match q, s with
  | EmptyString, _ => true
  | String a q', String b s' => Ascii.eqb a b && starts_with q' s'
  | String _ _, EmptyString => false
  end.

(** [q in s] *)
Fixpoint contains (q s : string) : bool :=
  starts_with q s ||
  match s with
  | EmptyString => false
  | String _ s' => contains q s'
  end.

(** [not s] *)
Definition is_empty (s : string) : bool :=
  match s with EmptyString => true | String _ _ => false end.

(** [str(n)] for an integer. *)
Definition str_of_int (n : Z) : string := NilZero.string_of_int (Z.to_int n).

(** ** The dynamic search of app.py *)

(** [args.get(key, "")] on the query arguments of the request. *)
Definition args_get (args : gmap string string) (key : string) : string :=
  default EmptyString (args !! key).

Definition api_dynamic_search {T : Text} (hash_table : HashTable.t)
    (args : gmap string string) : list Employee :=
  let all_records := HashTable.flatten hash_table in
  let id_query := lower (strip (args_get args "id")) in
  let name_query := lower (strip (args_get args "name")) in
  let dept_query := lower (strip (args_get args "department")) in
  fold_left
    (fun results r =>
       if (is_empty id_query || contains id_query (lower (str_of_int (id r))))
          && (is_empty name_query || contains name_query (lower (name r)))
          && (is_empty dept_query || contains dept_query (lower (department r)))
       then results ++ [r]
       else results)
    all_records [].

(** ** Raw input values

    The rows of an upload are dicts of loosely typed values.  The code
    applies only [int()], [str()] and [is not None] to them, so a float is
    given by what these make of it ([int(f)] is [None] for [nan] and the
    infinities), and so is a list or dict, on which [int()] raises. *)

Inductive pyval : Type :=
  | PNone
  | PBool (b : bool)
  | PInt (n : Z)
  | PFloat (truncated : option Z) (repr : string)
  | PStr (s : string)
  | POther (repr : string).

(** [int(v)] *)
Definition py_int {T : Text} (v : pyval) : res Z :=
  match v with
  | PNone => Raise TypeError
  | PBool b => Ok (if b then 1 else 0)
  | PInt n => Ok n
  | PFloat (Some n) _ => Ok n
  | PFloat None _ => Raise ValueError
  | PStr s => match int_of_string s with Some n => Ok n | None => Raise ValueError end
  | POther _ => Raise TypeError
  end.

(** [str(v)] *)
Definition py_str (v : pyval) : string :=
  match v with
  | PNone => "None"
  | PBool b => if b then "True" else "False"
  | PInt n => str_of_int n
  | PFloat _ repr => repr
  | PStr s => s
  | POther repr => repr
  end.

(** [v is not None] *)
Definition is_not_none (v : pyval) : bool :=
  match v with PNone => false | _ => true end.

(** [d.get(key, dflt)]; [d.get(key)] is [dict_get d key PNone]. *)
Definition dict_get (d : gmap string pyval) (key : string) (dflt : pyval) : pyval :=
  default dflt (d !! key).

(** ** Record processing of app.py *)

Definition HASH_TABLE_SIZE : Z := 20.

(** The global store: the hash table and the contents of [database.json]. *)
Record Store : Type := mkStore {
  hash_table : HashTable.t;
  database : list Employee
}.

(** [save_database_from_hashtable]: the snapshot of the table is written to
    [database.json]. *)
Definition save_database_from_hashtable (st : Store) : Store :=
  {| hash_table := hash_table st; database := HashTable.flatten (hash_table st) |}.

(** The body of the [try] block: the five fields of a row. *)
Definition parse_row {T : Text} (rec : gmap string pyval)
    : res (Z * string * string * Z * Z) :=
  let* emp_id := py_int (dict_get rec "id" PNone) in
  let name := strip (py_str (dict_get rec "name" (PStr ""))) in
  let dept := strip (py_str (dict_get rec "department" (PStr ""))) in
  let* attendance := py_int (dict_get rec "attendance" (PInt 0)) in
  let* total_days :=
    (if is_not_none (dict_get rec "total_days" PNone)
     then py_int (dict_get rec "total_days" (PInt 0))
     else Ok 0) in
  Ok (emp_id, name, dept, attendance, total_days).

Section ProcessRecords.

Context {T : Text}.

(** [percentage attendance total_days] stands for the float expression
    [round((attendance / total_days) * 100, 1)], in tenths of a percent;
    the division raises [OverflowError] when the quotient of the two
    integers is beyond the range of a float. *)
Variable percentage : Z -> Z -> res Z.

(** The [for rec in raw_list] loop.  A call that raises ends the loop; the
    state of the table at that point is not kept. *)
Fixpoint process_loop (raw_list : list (gmap string pyval)) (table : HashTable.t)
    (processed : list Employee) : res (HashTable.t * list Employee) :=
  match raw_list with
  | [] => Ok (table, processed)
  | rec :: rest =>
      match parse_row rec with
      | Ok (emp_id, name, dept, attendance, total_days) =>
          let* percent :=
            (if total_days >? 0 then percentage attendance total_days else Ok 0) in
          let* hash_idx := py_mod emp_id HASH_TABLE_SIZE in
          let record :=
            {| id := emp_id; name := name; department := dept;
               attendance := attendance; total_days := total_days;
               attendance_percentage := percent; hash_index := hash_idx |} in
          let* out := HashTable.insert table record in
          process_loop rest (fst out) (processed ++ [record])
      | Raise _ => process_loop rest table processed
      end
  end.

Definition process_records (raw_list : list (gmap string pyval)) (st : Store)
    : res (list Employee * Store) :=
  let* out := process_loop raw_list (hash_table st) [] in
  let st := {| hash_table := fst out; database := database st |} in
  Ok (snd out, save_database_from_hashtable st).

End ProcessRecords.

(** ** utils/searching.py *)

Definition search_by_id (hash_table : HashTable.t) (emp_id : Z)
    : res (option Employee * list (Z * option Employee)) :=
  let* out := HashTable.get hash_table emp_id in
  Ok (fst out, snd out).

(** The loop of [search_by_name] builds [matches] and [checked], the pairs
    of id and name of the records looked at. *)
Definition search_by_name {T : Text} (hash_table : HashTable.t) (query : string)
    : list Employee * list (Z * string) :=
  let name_lower := lower (strip query) in
  fold_left
    (fun (acc : list Employee * list (Z * string)) slot =>
       let checked := snd acc ++ [(id slot, name slot)] in
       if contains name_lower (lower (name slot))
       then (fst acc ++ [slot], checked)
       else (fst acc, checked))
    (HashTable.flatten hash_table) ([], []).

(** ** The read routes of app.py

    A route returns the body of its JSON response and the status code. *)

Definition view_all (hash_table : HashTable.t) : list Employee * Z :=
  (HashTable.flatten hash_table, 200).

Definition hash_view (hash_table : HashTable.t) : list (option HashTable.Summary) * Z :=
  (HashTable.as_list hash_table, 200).

Inductive search_id_body : Type :=
  | IdNotFound (trace : list (Z * option Employee))
  | IdFound (trace : list (Z * option Employee)) (record : Employee).

Definition api_search_id (hash_table : HashTable.t) (emp_id : Z)
    : res (search_id_body * Z) :=
  let* out := search_by_id hash_table emp_id in
  match fst out with
  | None => Ok (IdNotFound (snd out), 404)
  | Some result => Ok (IdFound (snd out) result, 200)
  end.

Inductive search_name_body : Type :=
  | NameNotFound (trace : list (Z * string))
  | NameFound (trace : list (Z * string)) (records : list Employee).

Definition api_search_name {T : Text} (hash_table : HashTable.t) (query : string)
    : search_name_body * Z :=
  let out := search_by_name hash_table query in
  match fst out with
  | [] => (NameNotFound (snd out), 404)
  | _ :: _ => (NameFound (snd out) (fst out), 200)
  end.

Inductive sort_body : Type :=
  | SortError (message : string)
  | SortOk (records : list Employee).

Definition api_sort {T : Text} (hash_table : HashTable.t) (order : string)
    : sort_body * Z :=
  let order := lower order in
  if negb (String.eqb order "asc" || String.eqb order "desc")
  then (SortError "order must be 'asc' or 'desc'", 400)
  else
    let all_records := HashTable.flatten hash_table in
    (SortOk (sort_employees_by_percentage all_records order), 200).

(** [percent] is an integer of the URL; the percentages are in tenths. *)
Definition api_filter (hash_table : HashTable.t) (percent : Z) : list Employee * Z :=
  let all_records := HashTable.flatten hash_table in
  (List.filter (fun r => 10 * percent <=? attendance_percentage r) all_records, 200).

(** ** Vocabulary of the hash-table properties *)

(** The table has as many slots as its size says. *)
Definition wf (h : HashTable.t) : Prop :=
  length (HashTable.table h) = Z.to_nat (HashTable.size h).

(** The [i]-th position of the probe sequence of [emp_id]. *)
Definition probe (h : HashTable.t) (emp_id i : Z) : Z :=
  (emp_id mod HashTable.size h + i) mod HashTable.size h.

(** What the table holds at position [p]. *)
Definition slot_at (h : HashTable.t) (p : Z) : option Employee :=
  default None (HashTable.table h !! Z.to_nat p).

Definition empty_at (h : HashTable.t) (p : Z) : Prop :=
  HashTable.table h !! Z.to_nat p = Some None.

Definition holds_at (h : HashTable.t) (p : Z) (s : Employee) : Prop :=
  HashTable.table h !! Z.to_nat p = Some (Some s).

(** Position [p] holds a record of another employee: probing goes on. *)
Definition busy_other (h : HashTable.t) (emp_id p : Z) : Prop :=
  exists s, holds_at h p s /\ id s <> emp_id.

(** Position [p] is empty or holds a record of [emp_id]: probing stops. *)
Definition stops_at (h : HashTable.t) (emp_id p : Z) : Prop :=
  empty_at h p \/ exists s, holds_at h p s /\ id s = emp_id.

(** [self.table[p] = record] *)
Definition store (h : HashTable.t) (p : Z) (r : Employee) : HashTable.t :=
  {| HashTable.size := HashTable.size h;
     HashTable.table := <[Z.to_nat p := Some r]> (HashTable.table h) |}.

(** Number of occupied slots. *)
Definition occupied (h : HashTable.t) : nat := length (HashTable.flatten h).

(** [insert] runs its loop to the end and overwrites the slot of the hash. *)
Definition falls_back (h : HashTable.t) (r : Employee) : bool :=
  match
    (let* idx := HashTable.hash_function h (id r) in
     HashTable.insert_loop h r (id r) idx (range (HashTable.size h)))
  with
  | Ok None => true
  | _ => false
  end.

(** Tables built from an empty one by calls of [insert]. *)
Inductive reachable : HashTable.t -> Prop :=
  | reach_new (n : Z) : reachable (HashTable.new n)
  | reach_insert (h h' : HashTable.t) (r : Employee) (pos : Z) :
      reachable h -> HashTable.insert h r = Ok (h', pos) -> reachable h'.

(** The same, when no call took the full-table fallback. *)
Inductive reachable_direct : HashTable.t -> Prop :=
  | direct_new (n : Z) : reachable_direct (HashTable.new n)
  | direct_insert (h h' : HashTable.t) (r : Employee) (pos : Z) :
      reachable_direct h -> falls_back h r = false ->
      HashTable.insert h r = Ok (h', pos) -> reachable_direct h'.

(** No two slots hold records of the same employee. *)
Definition unique_ids (h : HashTable.t) : Prop :=
  forall (p q : nat) (s1 s2 : Employee),
    HashTable.table h !! p = Some (Some s1) ->
    HashTable.table h !! q = Some (Some s2) ->
    id s1 = id s2 -> p = q.

(** Every stored record sits at the first position of its own probe
    sequence that does not hold another employee. *)
Definition findable (h : HashTable.t) : Prop :=
  forall (p : nat) (s : Employee),
    HashTable.table h !! p = Some (Some s) ->
    exists i, 0 <= i < HashTable.size h /\
      Z.to_nat (probe h (id s) i) = p /\
      forall j, 0 <= j < i -> busy_other h (id s) (probe h (id s) j).

(** No probe wrapped around the end of the table: every record sits at or
    after the slot of its hash. *)
Definition no_wrap (h : HashTable.t) : Prop :=
  forall (p : nat) (s : Employee),
    HashTable.table h !! p = Some (Some s) ->
    id s mod HashTable.size h <= Z.of_nat p.

(** The table [h] with its first [k] slots kept and the others emptied: the
    state of a rebuild that has inserted the records of the first [k]
    slots. *)
Definition refilled (h : HashTable.t) (k : nat) : HashTable.t :=
  {| HashTable.size := HashTable.size h;
     HashTable.table :=
       take k (HashTable.table h)
       ++ replicate (length (HashTable.table h) - k) None |}.

(** The trace entry of [get] for the [i]-th probe of [emp_id]. *)
Definition trace_entry (h : HashTable.t) (emp_id i : Z) : Z * option Employee :=
  (probe h emp_id i, slot_at h (probe h emp_id i)).

(** ** Vocabulary of the properties of the dynamic search *)

(** [q] occurs in [s] when letter case is ignored: the lower-cased [q]
    occurs in the lower-cased [s]. *)
Definition ci_substring {T : Text} (q s : string) : Prop :=
  exists pre post : string, lower s = (pre ++ lower q ++ post)%string.

(** ** Vocabulary of the properties of record processing *)

(** The value under [key] is an integer for [int()]. *)
Definition int_field {T : Text} (rec : gmap string pyval) (key : string) (n : Z) : Prop :=
  exists v, rec !! key = Some v /\ py_int v = Ok n.

(** The id of the row parses as an integer. *)
Definition id_parses {T : Text} (rec : gmap string pyval) : Prop :=
  exists n, int_field rec "id" n.

(** The attendance of the row is absent, or parses as the integer [n]. *)
Definition attendance_reads {T : Text} (rec : gmap string pyval) (n : Z) : Prop :=
  (rec !! "attendance"%string = None /\ n = 0) \/ int_field rec "attendance" n.

(** The total of days of the row is absent or [None], or parses as [n]. *)
Definition total_days_reads {T : Text} (rec : gmap string pyval) (n : Z) : Prop :=
  (rec !! "total_days"%string = None /\ n = 0) \/
  (rec !! "total_days"%string = Some PNone /\ n = 0) \/
  int_field rec "total_days" n.

(** The three integer fields of the row can be read. *)
Definition row_readable {T : Text} (rec : gmap string pyval) : Prop :=
  id_parses rec /\ (exists a, attendance_reads rec a) /\
  (exists t, total_days_reads rec t).

(** [r] is the record made from the row [rec]. *)
Definition record_of_row {T : Text} (rec : gmap string pyval) (r : Employee) : Prop :=
  int_field rec "id" (id r) /\
  name r = strip (py_str (dict_get rec "name" (PStr ""))) /\
  department r = strip (py_str (dict_get rec "department" (PStr ""))) /\
  attendance_reads rec (attendance r) /\
  total_days_reads rec (total_days r) /\
  hash_index r = id r mod HASH_TABLE_SIZE.

(** The percentage of every row that can be read is computed without
    overflow. *)
Definition percentages_defined {T : Text} (percentage : Z -> Z -> res Z)
    (raw_list : list (gmap string pyval)) : Prop :=
  forall rec emp_id name dept attendance total_days,
    In rec raw_list ->
    parse_row rec = Ok (emp_id, name, dept, attendance, total_days) ->
    0 < total_days ->
    exists p, percentage attendance total_days = Ok p.

(** Whether the [try] block of a row ends without an exception. *)
Definition kept_row {T : Text} (rec : gmap string pyval) : bool :=
  match parse_row rec with Ok _ => true | Raise _ => false end.

(** ** Vocabulary of the further properties *)

(** The table holds the record [s] in one of its slots. *)
Definition stored (h : HashTable.t) (s : Employee) : Prop :=
  exists p : nat, HashTable.table h !! p = Some (Some s).

(** The last record of the list [rs] with the id [k]. *)
Definition last_with_id (rs : list Employee) (k : Z) : option Employee :=
  List.find (fun r => id r =? k) (rev rs).

(** The entry of [as_list] for a slot at the index [i]. *)
Definition summary_of (i : nat) (slot : option Employee) : option HashTable.Summary :=
  match slot with
  | None => None
  | Some s =>
      Some {| HashTable.summary_index := Z.of_nat i;
              HashTable.summary_id := id s;
              HashTable.summary_name := name s;
              HashTable.summary_percentage := attendance_percentage s |}
  end.

(** ** The built-ins on ASCII text

    The instance of [Text] used in the examples: the reference functions
    themselves. *)

#[global] Instance ascii_text : Text := {|
  lower := ascii_lower;
  strip := ascii_strip;
  int_of_string := ascii_int_of_string;
  lower_ascii := fun s _ => eq_refl;
  strip_ascii := fun s _ => eq_refl;
  int_ascii := fun s _ _ => eq_refl
|}.


(** ** Sample data *)

(** A record as [process_records] builds it for the row [{"id": n}]. *)
Definition emp (n : Z) : Employee :=
  {| id := n; name := ""; department := ""; attendance := 0; total_days := 0;
     attendance_percentage := 0; hash_index := n mod 20 |}.

(** The table after inserting [rs] one by one into [h], as far as the
    calls return. *)
Fixpoint after (h : HashTable.t) (rs : list Employee) : HashTable.t :=
  match rs with
  | [] => h
  | r :: rs' =>
      match HashTable.insert h r with
      | Ok (h', _) => after h' rs'
      | Raise _ => h
      end
  end.

(** Whether every call of the run returns without the fallback. *)
Fixpoint runs_direct (h : HashTable.t) (rs : list Employee) : bool :=
  match rs with
  | [] => true
  | r :: rs' =>
      negb (falls_back h r) &&
      match HashTable.insert h r with
      | Ok (h', _) => runs_direct h' rs'
      | Raise _ => false
      end
  end.

(** Whether every call of the run returns. *)
Fixpoint runs (h : HashTable.t) (rs : list Employee) : bool :=
  match rs with
  | [] => true
  | r :: rs' =>
      match HashTable.insert h r with
      | Ok (h', _) => runs h' rs'
      | Raise _ => false
      end
  end.

(** Capacity 5 with the ids 2, 7 and 12, which all hash to slot 2. *)
Definition table_2_7_12 : HashTable.t :=
  after (HashTable.new 5) [emp 2; emp 7; emp 12].

(** Capacity 2, filled by the ids 0 and 1; the id 2 then falls back. *)
Definition table_full : HashTable.t :=
  after (HashTable.new 2) [emp 0; emp 1].

(** Capacity 20 with the ids 19 and 39: the second wraps around to slot 0. *)
Definition table_wrapped : HashTable.t :=
  after (HashTable.new 20) [emp 19; emp 39].

(** The two records of the dynamic-filter example, in a table of the
    capacity the application uses. *)
Definition go_lin : Employee :=
  {| id := 1; name := "Go Lin"; department := "CSE"; attendance := 9;
     total_days := 10; attendance_percentage := 900; hash_index := 1 |}.

Definition ann : Employee :=
  {| id := 2; name := "Ann"; department := "CSE"; attendance := 4;
     total_days := 8; attendance_percentage := 500; hash_index := 2 |}.

Definition table_staff : HashTable.t := after (HashTable.new 20) [go_lin; ann].

(** The percentage when the float arithmetic is exact: the quotient in
    tenths of a percent, rounded to the nearest, halves to even. *)
Definition exact_percentage (attendance total_days : Z) : res Z :=
  let n := 1000 * attendance in
  let q := n / total_days in
  let twice_rest := 2 * (n mod total_days) in
  Ok (if twice_rest <? total_days then q
      else if total_days <? twice_rest then q + 1
      else if Z.even q then q else q + 1).

(** The store at start-up with an empty [database.json]. *)
Definition store_empty : Store :=
  {| hash_table := HashTable.new HASH_TABLE_SIZE; database := [] |}.

(** A row whose id is an integer and whose attendance is not a number. *)
Definition row_bad_attendance : gmap string pyval :=
  <[ "id"%string := PInt 1 ]> {[ "attendance"%string := PStr "abc" ]}.

(** A row with an id given as text and no other field. *)
Definition row_id_only : gmap string pyval := {[ "id"%string := PStr " 7 " ]}.

(** A row without an id. *)
Definition row_no_id : gmap string pyval := {[ "name"%string := PStr "Ann" ]}.

(** A row with attendance but a total of days of zero. *)
Definition row_zero_days : gmap string pyval :=
  <[ "id"%string := PInt 3 ]>
  (<[ "name"%string := PStr "Cy" ]>
  (<[ "attendance"%string := PInt 5 ]>
   {[ "total_days"%string := PInt 0 ]})).

(** A complete row. *)
Definition row_ann : gmap string pyval :=
  <[ "id"%string := PInt 2 ]>
  (<[ "name"%string := PStr " Ann " ]>
  (<[ "department"%string := PStr "CSE" ]>
  (<[ "attendance"%string := PStr "4" ]>
   {[ "total_days"%string := PInt 8 ]}))).

(** A batch of four rows, of which the second and the third are skipped,
    processed on the empty store. *)
Definition batch_rows : list (gmap string pyval) :=
  [row_id_only; row_bad_attendance; row_no_id; row_ann].

Definition batch_processed : list Employee :=
  match process_records exact_percentage batch_rows store_empty with
  | Ok out => fst out
  | Raise _ => []
  end.

Definition store_after_batch : Store :=
  match process_records exact_percentage batch_rows store_empty with
  | Ok out => snd out
  | Raise _ => store_empty
  end.

(** * Properties *)

(** ** Arithmetic of probing *)

Lemma mod_wrap (a n : Z) : 0 < n -> n <= a < 2 * n -> a mod n = a - n.
Proof.
  intros Hn Ha. symmetry. apply (Z.mod_unique_pos a n 1); lia.
Qed.

Lemma probe_range (h : HashTable.t) (k i : Z) :
  0 < HashTable.size h -> 0 <= probe h k i < HashTable.size h.
Proof. intros Hn. unfold probe. apply Z.mod_pos_bound. exact Hn. Qed.

Lemma probe_zero (h : HashTable.t) (k : Z) :
  0 < HashTable.size h -> probe h k 0 = k mod HashTable.size h.
Proof.
  intros Hn. unfold probe. rewrite Z.add_0_r. apply Z.mod_small.
  apply Z.mod_pos_bound. exact Hn.
Qed.

Lemma probe_cases (h : HashTable.t) (k i : Z) :
  0 < HashTable.size h -> 0 <= i < HashTable.size h ->
  probe h k i = k mod HashTable.size h + i \/
  probe h k i = k mod HashTable.size h + i - HashTable.size h.
Proof.
  intros Hn Hi. unfold probe.
  pose proof (Z.mod_pos_bound k (HashTable.size h) Hn) as Hk.
  destruct (Z_lt_dec (k mod HashTable.size h + i) (HashTable.size h)) as [Hlt|Hge].
  - left. apply Z.mod_small. lia.
  - right. apply mod_wrap; lia.
Qed.

Lemma probe_inj (h : HashTable.t) (k i j : Z) :
  0 < HashTable.size h -> 0 <= i < HashTable.size h -> 0 <= j < HashTable.size h ->
  probe h k i = probe h k j -> i = j.
Proof.
  intros Hn Hi Hj Heq.
  pose proof (probe_range h k i Hn). pose proof (probe_range h k j Hn).
  destruct (probe_cases h k i Hn Hi), (probe_cases h k j Hn Hj); lia.
Qed.

Lemma probe_surj (h : HashTable.t) (k p : Z) :
  0 < HashTable.size h -> 0 <= p < HashTable.size h ->
  exists i, 0 <= i < HashTable.size h /\ probe h k i = p.
Proof.
  intros Hn Hp.
  pose proof (Z.mod_pos_bound k (HashTable.size h) Hn) as Hk.
  destruct (Z_le_dec (k mod HashTable.size h) p) as [Hle|Hgt].
  - exists (p - k mod HashTable.size h). split; [lia|].
    unfold probe. replace (k mod HashTable.size h + (p - k mod HashTable.size h)) with p by lia.
    apply Z.mod_small. lia.
  - exists (p - k mod HashTable.size h + HashTable.size h). split; [lia|].
    unfold probe. rewrite mod_wrap; lia.
Qed.

(** ** Python list access inside the table *)

Lemma py_mod_ok (a n : Z) : n <> 0 -> py_mod a n = Ok (a mod n).
Proof. intros Hn. unfold py_mod. destruct (Z.eqb_spec n 0); [contradiction|reflexivity]. Qed.

Lemma py_index_in_range (len : nat) (p : Z) :
  0 <= p < Z.of_nat len -> py_index len p = Some (Z.to_nat p).
Proof.
  intros Hp. unfold py_index.
  destruct (Z.ltb_spec p 0); [lia|].
  destruct (Z.leb_spec 0 p); [|lia].
  destruct (Z.ltb_spec p (Z.of_nat len)); [reflexivity|lia].
Qed.

Lemma py_getitem_in_range {A : Type} (l : list A) (p : Z) :
  0 <= p < Z.of_nat (length l) ->
  exists x, l !! Z.to_nat p = Some x /\ py_getitem l p = Ok x.
Proof.
  intros Hp. unfold py_getitem. rewrite py_index_in_range by exact Hp.
  destruct (lookup_lt_is_Some_2 l (Z.to_nat p)) as [x Hx]; [lia|].
  exists x. rewrite Hx. split; reflexivity.
Qed.

Lemma py_setitem_in_range {A : Type} (l : list A) (p : Z) (x : A) :
  0 <= p < Z.of_nat (length l) -> py_setitem l p x = Ok (<[Z.to_nat p := x]> l).
Proof.
  intros Hp. unfold py_setitem. rewrite py_index_in_range by exact Hp. reflexivity.
Qed.

Lemma busy_not_stops (h : HashTable.t) (k p : Z) :
  busy_other h k p -> stops_at h k p -> False.
Proof.
  intros [s [Hs Hne]] [He|[s' [Hs' Heq]]]; unfold holds_at, empty_at in *.
  - congruence.
  - rewrite Hs in Hs'. injection Hs' as <-. contradiction.
Qed.

(** ** One step of the two probing loops *)

Section Probing.

Variable h : HashTable.t.
Hypothesis Hwf : wf h.
Hypothesis Hn : 0 < HashTable.size h.

Let n := HashTable.size h.

Lemma probe_in_table (k i : Z) :
  0 <= probe h k i < Z.of_nat (length (HashTable.table h)).
Proof.
  pose proof (probe_range h k i Hn). unfold wf in Hwf. lia.
Qed.

Lemma slot_cases (k p : Z) :
  0 <= p < n -> busy_other h k p \/ stops_at h k p.
Proof.
  intros Hp. unfold busy_other, stops_at, holds_at, empty_at.
  destruct (lookup_lt_is_Some_2 (HashTable.table h) (Z.to_nat p)) as [x Hx].
  { unfold wf in Hwf. subst n. lia. }
  rewrite Hx. destruct x as [s|].
  - destruct (Z.eq_dec (id s) k) as [Heq|Hne].
    + right. right. exists s. split; [reflexivity|exact Heq].
    + left. exists s. split; [reflexivity|exact Hne].
  - right. left. reflexivity.
Qed.

Lemma insert_loop_stop (r : Employee) (k i : Z) (ixs : list Z) :
  stops_at h k (probe h k i) ->
  HashTable.insert_loop h r k (k mod n) (i :: ixs)
  = Ok (Some (store h (probe h k i) r, probe h k i)).
Proof.
  intros Hstop. unfold n. simpl. rewrite py_mod_ok by lia. cbn [bind]. fold (probe h k i).
  destruct (py_getitem_in_range (HashTable.table h) (probe h k i)
              (probe_in_table k i)) as [x [Hx ->]].
  cbn [bind]. unfold stops_at, empty_at, holds_at in Hstop. rewrite Hx in Hstop.
  rewrite (py_setitem_in_range _ _ _ (probe_in_table k i)). simpl.
  destruct Hstop as [Hnone|[s [Hs Hid]]].
  - injection Hnone as ->. reflexivity.
  - injection Hs as ->. rewrite <- Hid, Z.eqb_refl. reflexivity.
Qed.

Lemma insert_loop_skip (r : Employee) (k i : Z) (ixs : list Z) :
  busy_other h k (probe h k i) ->
  HashTable.insert_loop h r k (k mod n) (i :: ixs)
  = HashTable.insert_loop h r k (k mod n) ixs.
Proof.
  intros [s [Hs Hne]]. unfold n. simpl. rewrite py_mod_ok by lia. cbn [bind]. fold (probe h k i).
  destruct (py_getitem_in_range (HashTable.table h) (probe h k i)
              (probe_in_table k i)) as [x [Hx ->]].
  cbn [bind]. unfold holds_at in Hs. rewrite Hx in Hs. injection Hs as ->.
  destruct (Z.eqb_spec (id s) k); [contradiction|reflexivity].
Qed.

Lemma get_loop_stop (k i : Z) (ixs : list Z) (tr : list (Z * option Employee)) :
  stops_at h k (probe h k i) ->
  HashTable.get_loop h k (k mod n) (i :: ixs) tr
  = Ok (slot_at h (probe h k i), tr ++ [trace_entry h k i]).
Proof.
  intros Hstop. unfold n. simpl. rewrite py_mod_ok by lia. cbn [bind]. fold (probe h k i).
  destruct (py_getitem_in_range (HashTable.table h) (probe h k i)
              (probe_in_table k i)) as [x [Hx ->]].
  cbn [bind]. unfold trace_entry, slot_at. rewrite Hx. simpl.
  unfold stops_at, empty_at, holds_at in Hstop. rewrite Hx in Hstop.
  destruct Hstop as [Hnone|[s [Hs Hid]]].
  - injection Hnone as ->. reflexivity.
  - injection Hs as ->. rewrite <- Hid, Z.eqb_refl. reflexivity.
Qed.

Lemma get_loop_skip (k i : Z) (ixs : list Z) (tr : list (Z * option Employee)) :
  busy_other h k (probe h k i) ->
  HashTable.get_loop h k (k mod n) (i :: ixs) tr
  = HashTable.get_loop h k (k mod n) ixs (tr ++ [trace_entry h k i]).
Proof.
  intros [s [Hs Hne]]. unfold n. simpl. rewrite py_mod_ok by lia. cbn [bind]. fold (probe h k i).
  destruct (py_getitem_in_range (HashTable.table h) (probe h k i)
              (probe_in_table k i)) as [x [Hx ->]].
  cbn [bind]. unfold trace_entry, slot_at. unfold holds_at in Hs. rewrite Hx in Hs.
  injection Hs as ->. rewrite Hx. simpl.
  destruct (Z.eqb_spec (id s) k); [contradiction|reflexivity].
Qed.

(** The loops over [i = a, a+1, ..., a+m-1]. *)

Lemma insert_loop_seq (r : Employee) (k : Z) (m a : nat) :
  (HashTable.insert_loop h r k (k mod n) (map Z.of_nat (seq a m)) = Ok None /\
   forall j, Z.of_nat a <= j < Z.of_nat (a + m) -> busy_other h k (probe h k j))
  \/
  (exists i, Z.of_nat a <= i < Z.of_nat (a + m) /\
     (forall j, Z.of_nat a <= j < i -> busy_other h k (probe h k j)) /\
     stops_at h k (probe h k i) /\
     HashTable.insert_loop h r k (k mod n) (map Z.of_nat (seq a m))
     = Ok (Some (store h (probe h k i) r, probe h k i))).
Proof.
  revert a. induction m as [|m IH]; intros a.
  - left. split; [reflexivity|]. intros j Hj. lia.
  - cbn [seq map].
    destruct (slot_cases k (probe h k (Z.of_nat a)) (probe_range h k _ Hn))
      as [Hbusy|Hstop].
    + rewrite (insert_loop_skip r k _ _ Hbusy).
      destruct (IH (S a)) as [[Hnone Hall]|[i [Hi [Hbefore [Hstop Hres]]]]].
      * left. split; [exact Hnone|]. intros j Hj.
        destruct (Z.eq_dec j (Z.of_nat a)) as [->|Hne]; [exact Hbusy|].
        apply Hall. lia.
      * right. exists i. split; [lia|]. split; [|split; assumption].
        intros j Hj.
        destruct (Z.eq_dec j (Z.of_nat a)) as [->|Hne]; [exact Hbusy|].
        apply Hbefore. lia.
    + right. exists (Z.of_nat a). split; [lia|]. split; [intros j Hj; lia|].
      split; [exact Hstop|]. apply insert_loop_stop. exact Hstop.
Qed.

Lemma get_loop_seq (k : Z) (m a : nat) (tr : list (Z * option Employee)) :
  (HashTable.get_loop h k (k mod n) (map Z.of_nat (seq a m)) tr
   = Ok (None, tr ++ map (trace_entry h k) (map Z.of_nat (seq a m))) /\
   forall j, Z.of_nat a <= j < Z.of_nat (a + m) -> busy_other h k (probe h k j))
  \/
  (exists i : nat, (a <= i < a + m)%nat /\
     (forall j, Z.of_nat a <= j < Z.of_nat i -> busy_other h k (probe h k j)) /\
     stops_at h k (probe h k (Z.of_nat i)) /\
     HashTable.get_loop h k (k mod n) (map Z.of_nat (seq a m)) tr
     = Ok (slot_at h (probe h k (Z.of_nat i)),
           tr ++ map (trace_entry h k) (map Z.of_nat (seq a (S i - a))))).
Proof.
  revert a tr. induction m as [|m IH]; intros a tr.
  - left. split; [cbn; rewrite app_nil_r; reflexivity|]. intros j Hj. lia.
  - cbn [seq map].
    destruct (slot_cases k (probe h k (Z.of_nat a)) (probe_range h k _ Hn))
      as [Hbusy|Hstop].
    + rewrite (get_loop_skip k _ _ _ Hbusy).
      destruct (IH (S a) (tr ++ [trace_entry h k (Z.of_nat a)]))
        as [[Hnone Hall]|[i [Hi [Hbefore [Hstop Hres]]]]].
      * left. split.
        { rewrite Hnone, <- app_assoc. reflexivity. }
        intros j Hj.
        destruct (Z.eq_dec j (Z.of_nat a)) as [->|Hne]; [exact Hbusy|].
        apply Hall. lia.
      * right. exists i. split; [lia|]. split; [|split; [exact Hstop|]].
        { intros j Hj.
          destruct (Z.eq_dec j (Z.of_nat a)) as [->|Hne]; [exact Hbusy|].
          apply Hbefore. lia. }
        rewrite Hres, <- app_assoc.
        replace (S i - a)%nat with (S (S i - S a))%nat by lia. reflexivity.
    + right. exists a. split; [lia|]. split; [intros j Hj; lia|].
      split; [exact Hstop|]. rewrite (get_loop_stop k _ _ _ Hstop).
      replace (S a - a)%nat with 1%nat by lia. reflexivity.
Qed.

End Probing.

(** ** The three ways [insert] ends *)

Lemma insert_cases (h : HashTable.t) (r : Employee) :
  wf h -> 0 < HashTable.size h ->
  (exists i, 0 <= i < HashTable.size h /\
     (forall j, 0 <= j < i -> busy_other h (id r) (probe h (id r) j)) /\
     stops_at h (id r) (probe h (id r) i) /\
     HashTable.insert h r = Ok (store h (probe h (id r) i) r, probe h (id r) i) /\
     falls_back h r = false)
  \/
  ((forall j, 0 <= j < HashTable.size h -> busy_other h (id r) (probe h (id r) j)) /\
   HashTable.insert h r
   = Ok (store h (id r mod HashTable.size h) r, id r mod HashTable.size h) /\
   falls_back h r = true).
Proof.
  intros Hwf Hn. unfold HashTable.insert, falls_back, HashTable.hash_function.
  rewrite py_mod_ok by lia. cbn [bind]. unfold range.
  destruct (insert_loop_seq h Hwf Hn r (id r) (Z.to_nat (HashTable.size h)) 0)
    as [[Hnone Hall]|[i [Hi [Hbefore [Hstop Hres]]]]].
  - right. rewrite Hnone. cbn [bind]. split; [intros j Hj; apply Hall; lia|].
    split; [|reflexivity].
    rewrite py_setitem_in_range; [reflexivity|].
    pose proof (Z.mod_pos_bound (id r) (HashTable.size h) Hn). unfold wf in Hwf. lia.
  - left. exists i. rewrite Hres. cbn [bind].
    split; [lia|]. split; [intros j Hj; apply Hbefore; lia|].
    split; [exact Hstop|]. split; reflexivity.
Qed.

Lemma insert_first_stop (h : HashTable.t) (r : Employee) (i : Z) :
  wf h -> 0 < HashTable.size h -> 0 <= i < HashTable.size h ->
  (forall j, 0 <= j < i -> busy_other h (id r) (probe h (id r) j)) ->
  stops_at h (id r) (probe h (id r) i) ->
  HashTable.insert h r = Ok (store h (probe h (id r) i) r, probe h (id r) i) /\
  falls_back h r = false.
Proof.
  intros Hwf Hn Hi Hbefore Hstop.
  destruct (insert_cases h r Hwf Hn)
    as [[i' [Hi' [Hbefore' [Hstop' [Hres Hfb]]]]]|[Hall _]].
  - assert (i' = i) as ->; [|split; assumption].
    destruct (Z.lt_trichotomy i' i) as [Hlt|[Heq|Hgt]]; [|exact Heq|].
    + exfalso. apply (busy_not_stops h (id r) (probe h (id r) i')); [|exact Hstop'].
      apply Hbefore. lia.
    + exfalso. apply (busy_not_stops h (id r) (probe h (id r) i)); [|exact Hstop].
      apply Hbefore'. lia.
  - exfalso. apply (busy_not_stops h (id r) (probe h (id r) i)); [|exact Hstop].
    apply Hall. exact Hi.
Qed.

Lemma insert_all_busy (h : HashTable.t) (r : Employee) :
  wf h -> 0 < HashTable.size h ->
  (forall j, 0 <= j < HashTable.size h -> busy_other h (id r) (probe h (id r) j)) ->
  HashTable.insert h r
  = Ok (store h (id r mod HashTable.size h) r, id r mod HashTable.size h) /\
  falls_back h r = true.
Proof.
  intros Hwf Hn Hall.
  destruct (insert_cases h r Hwf Hn) as [[i [Hi [_ [Hstop _]]]]|[_ Hres]].
  - exfalso. apply (busy_not_stops h (id r) (probe h (id r) i)); [|exact Hstop].
    apply Hall. exact Hi.
  - exact Hres.
Qed.

Lemma insert_ok_size (h : HashTable.t) (r : Employee) (out : HashTable.t * Z) :
  wf h -> HashTable.insert h r = Ok out -> 0 < HashTable.size h.
Proof.
  intros Hwf Hins. unfold HashTable.insert, HashTable.hash_function, py_mod in Hins.
  destruct (Z.eqb_spec (HashTable.size h) 0) as [Hz|Hnz]; [discriminate|].
  destruct (Z_lt_dec 0 (HashTable.size h)) as [Hpos|Hneg]; [exact Hpos|exfalso].
  cbn [bind] in Hins. unfold range in Hins.
  replace (Z.to_nat (HashTable.size h)) with 0%nat in Hins by lia.
  cbn [seq map HashTable.insert_loop bind] in Hins.
  unfold py_setitem, py_index in Hins. unfold wf in Hwf. rewrite Hwf in Hins.
  replace (Z.to_nat (HashTable.size h)) with 0%nat in Hins by lia.
  change (Z.of_nat 0) with 0 in Hins. rewrite Z.add_0_r in Hins.
  destruct (id r mod HashTable.size h <? 0);
    destruct (Z.leb_spec 0 (id r mod HashTable.size h));
    destruct (Z.ltb_spec (id r mod HashTable.size h) 0);
    cbn in Hins; try discriminate; lia.
Qed.

(** ** Writing one slot *)

Lemma store_wf (h : HashTable.t) (p : Z) (r : Employee) : wf h -> wf (store h p r).
Proof. unfold wf, store. cbn. rewrite length_insert. trivial. Qed.

Lemma store_same (h : HashTable.t) (p : Z) (r : Employee) :
  wf h -> 0 <= p < HashTable.size h ->
  HashTable.table (store h p r) !! Z.to_nat p = Some (Some r).
Proof.
  intros Hwf Hp. unfold store. cbn. apply list_lookup_insert_eq.
  unfold wf in Hwf. lia.
Qed.

Lemma store_other (h : HashTable.t) (p : Z) (r : Employee) (q : nat) :
  q <> Z.to_nat p ->
  HashTable.table (store h p r) !! q = HashTable.table h !! q.
Proof. intros Hne. unfold store. cbn. apply list_lookup_insert_ne. congruence. Qed.

Lemma busy_other_store (h : HashTable.t) (p : Z) (r : Employee) (k x : Z) :
  wf h -> 0 <= p < HashTable.size h ->
  busy_other h k x -> (Z.to_nat x = Z.to_nat p -> id r <> k) ->
  busy_other (store h p r) k x.
Proof.
  intros Hwf Hp [s [Hs Hne]] Hr. unfold busy_other, holds_at in *.
  destruct (Nat.eq_dec (Z.to_nat x) (Z.to_nat p)) as [Heq|Hneq].
  - exists r. rewrite Heq. split; [apply store_same; assumption|auto].
  - exists s. rewrite store_other by exact Hneq. split; assumption.
Qed.

Lemma flatten_store_empty (l : list (option Employee)) (p : nat) (r : Employee) :
  l !! p = Some None ->
  omap (fun slot => slot) (<[p := Some r]> l) ≡ₚ r :: omap (fun slot => slot) l.
Proof.
  revert p. induction l as [|x l IH]; intros p Hp; [discriminate|].
  destruct p as [|p]; cbn in Hp |- *.
  - injection Hp as ->. reflexivity.
  - destruct x as [s|]; cbn.
    + rewrite (IH p Hp). apply perm_swap.
    + apply IH. exact Hp.
Qed.

Lemma flatten_store_held (l : list (option Employee)) (p : nat) (r old : Employee) :
  l !! p = Some (Some old) ->
  length (omap (fun slot => slot) (<[p := Some r]> l))
  = length (omap (fun slot => slot) l).
Proof.
  revert p. induction l as [|x l IH]; intros p Hp; [discriminate|].
  destruct p as [|p]; cbn in Hp |- *.
  - injection Hp as ->. reflexivity.
  - destruct x as [s|]; cbn; [f_equal|]; apply IH; exact Hp.
Qed.

Lemma occupied_store_empty (h : HashTable.t) (p : Z) (r : Employee) :
  empty_at h p -> occupied (store h p r) = S (occupied h).
Proof.
  intros He. unfold occupied, HashTable.flatten, store. cbn.
  rewrite (flatten_store_empty _ _ r He). reflexivity.
Qed.

Lemma occupied_store_held (h : HashTable.t) (p : Z) (r old : Employee) :
  holds_at h p old -> occupied (store h p r) = occupied h.
Proof.
  intros Hh. unfold occupied, HashTable.flatten, store. cbn.
  apply (flatten_store_held _ _ r old Hh).
Qed.

(** ** The invariant of reachable tables *)

Lemma new_wf (n : Z) : wf (HashTable.new n).
Proof. unfold wf, HashTable.new. cbn. apply length_replicate. Qed.

Lemma new_no_record (n : Z) (p : nat) (s : Employee) :
  HashTable.table (HashTable.new n) !! p <> Some (Some s).
Proof.
  unfold HashTable.new. cbn. intros Hp.
  apply lookup_replicate in Hp. destruct Hp as [Hp _]. discriminate.
Qed.

Lemma findable_new (n : Z) : findable (HashTable.new n).
Proof. intros p s Hp. exfalso. exact (new_no_record n p s Hp). Qed.

Lemma slot_is_probe (h : HashTable.t) (k : Z) (q : nat) (x : option Employee) :
  wf h -> 0 < HashTable.size h -> HashTable.table h !! q = Some x ->
  exists i, 0 <= i < HashTable.size h /\ Z.to_nat (probe h k i) = q.
Proof.
  intros Hwf Hn Hq. apply lookup_lt_Some in Hq. unfold wf in Hwf.
  destruct (probe_surj h k (Z.of_nat q) Hn) as [i [Hi Hp]]; [lia|].
  exists i. split; [exact Hi|]. rewrite Hp. lia.
Qed.

Lemma to_nat_probe_inj (h : HashTable.t) (k k' i j : Z) :
  0 < HashTable.size h ->
  Z.to_nat (probe h k i) = Z.to_nat (probe h k' j) -> probe h k i = probe h k' j.
Proof.
  intros Hn Heq.
  pose proof (probe_range h k i Hn). pose proof (probe_range h k' j Hn). lia.
Qed.

Lemma findable_store_stop (h : HashTable.t) (r : Employee) (i : Z) :
  wf h -> 0 < HashTable.size h -> findable h ->
  0 <= i < HashTable.size h ->
  (forall j, 0 <= j < i -> busy_other h (id r) (probe h (id r) j)) ->
  stops_at h (id r) (probe h (id r) i) ->
  findable (store h (probe h (id r) i) r).
Proof.
  intros Hwf Hn Hfind Hi Hbefore Hstop q s Hq.
  pose proof (probe_range h (id r) i Hn) as HP.
  destruct (Nat.eq_dec q (Z.to_nat (probe h (id r) i))) as [->|Hne].
  - rewrite store_same in Hq by assumption. injection Hq as <-.
    exists i. split; [exact Hi|]. split; [reflexivity|].
    intros j Hj. change (probe (store h (probe h (id r) i) r)) with (probe h).
    apply busy_other_store; [assumption| assumption | apply Hbefore; exact Hj |].
    intros Heq. apply to_nat_probe_inj in Heq; [|exact Hn].
    apply probe_inj in Heq; [lia|exact Hn|lia|exact Hi].
  - rewrite store_other in Hq by exact Hne.
    destruct (Hfind q s Hq) as [i' [Hi' [Hpos Hbefore']]].
    exists i'. split; [exact Hi'|]. split; [exact Hpos|].
    intros j Hj. change (probe (store h (probe h (id r) i) r)) with (probe h).
    apply busy_other_store; [assumption| assumption | apply Hbefore'; exact Hj |].
    intros Heq Hid. apply to_nat_probe_inj in Heq; [|exact Hn].
    destruct (Hbefore' j Hj) as [s' [Hs' Hne']]. rewrite Heq in Hs'.
    destruct Hstop as [He|[s'' [Hs'' Hid'']]]; unfold holds_at, empty_at in *.
    + congruence.
    + rewrite Hs' in Hs''. injection Hs'' as <-. congruence.
Qed.

Lemma findable_store_full (h : HashTable.t) (r : Employee) :
  wf h -> 0 < HashTable.size h -> findable h ->
  (forall j, 0 <= j < HashTable.size h -> busy_other h (id r) (probe h (id r) j)) ->
  findable (store h (id r mod HashTable.size h) r).
Proof.
  intros Hwf Hn Hfind Hall q s Hq.
  pose proof (Z.mod_pos_bound (id r) (HashTable.size h) Hn) as HP.
  destruct (Nat.eq_dec q (Z.to_nat (id r mod HashTable.size h))) as [->|Hne].
  - rewrite store_same in Hq by assumption. injection Hq as <-.
    exists 0. split; [cbn; lia|]. split; [|intros j Hj; lia].
    change (probe (store h (id r mod HashTable.size h) r)) with (probe h).
    rewrite probe_zero by exact Hn. reflexivity.
  - rewrite store_other in Hq by exact Hne.
    destruct (Hfind q s Hq) as [i' [Hi' [Hpos Hbefore']]].
    exists i'. split; [exact Hi'|]. split; [exact Hpos|].
    intros j Hj. change (probe (store h (id r mod HashTable.size h) r)) with (probe h).
    apply busy_other_store; [assumption| assumption | apply Hbefore'; exact Hj |].
    intros _ Hid.
    destruct (slot_is_probe h (id r) q (Some s) Hwf Hn Hq) as [i [Hi Hiq]].
    destruct (Hall i Hi) as [s' [Hs' Hne']]. unfold holds_at in Hs'.
    rewrite Hiq, Hq in Hs'. injection Hs' as <-. congruence.
Qed.

Lemma insert_preserves (h h' : HashTable.t) (r : Employee) (pos : Z) :
  wf h -> findable h -> HashTable.insert h r = Ok (h', pos) ->
  wf h' /\ findable h' /\ HashTable.size h' = HashTable.size h.
Proof.
  intros Hwf Hfind Hins.
  pose proof (insert_ok_size h r _ Hwf Hins) as Hn.
  destruct (insert_cases h r Hwf Hn)
    as [[i [Hi [Hbefore [Hstop [Hres _]]]]]|[Hall [Hres _]]];
    rewrite Hres in Hins; injection Hins as <- <-.
  - split; [apply store_wf; exact Hwf|]. split; [|reflexivity].
    apply findable_store_stop; assumption.
  - split; [apply store_wf; exact Hwf|]. split; [|reflexivity].
    apply findable_store_full; assumption.
Qed.

Lemma reachable_invariant (h : HashTable.t) : reachable h -> wf h /\ findable h.
Proof.
  induction 1 as [n|h h' r pos Hreach [Hwf Hfind] Hins].
  - split; [apply new_wf|apply findable_new].
  - destruct (insert_preserves h h' r pos Hwf Hfind Hins) as [Hwf' [Hfind' _]].
    split; assumption.
Qed.

Lemma findable_unique (h : HashTable.t) : wf h -> findable h -> unique_ids h.
Proof.
  intros Hwf Hfind p q s1 s2 Hp Hq Hid.
  assert (0 < HashTable.size h) as Hn.
  { apply lookup_lt_Some in Hp. unfold wf in Hwf. lia. }
  destruct (Hfind p s1 Hp) as [i1 [Hi1 [Hp1 Hb1]]].
  destruct (Hfind q s2 Hq) as [i2 [Hi2 [Hp2 Hb2]]].
  rewrite <- Hid in Hp2, Hb2.
  destruct (Z.lt_trichotomy i1 i2) as [Hlt|[Heq|Hgt]].
  - exfalso. destruct (Hb2 i1) as [s [Hs Hne]]; [lia|].
    unfold holds_at in Hs. rewrite Hp1, Hp in Hs. injection Hs as <-. congruence.
  - subst i2. congruence.
  - exfalso. destruct (Hb1 i2) as [s [Hs Hne]]; [lia|].
    unfold holds_at in Hs. rewrite Hp2, Hq in Hs. injection Hs as <-. congruence.
Qed.

Lemma reachable_direct_reachable (h : HashTable.t) : reachable_direct h -> reachable h.
Proof.
  induction 1 as [n|h h' r pos _ IH _ Hins].
  - apply reach_new.
  - exact (reach_insert h h' r pos IH Hins).
Qed.

Lemma runs_reachable (h : HashTable.t) (rs : list Employee) :
  reachable h -> runs h rs = true -> reachable (after h rs).
Proof.
  revert h. induction rs as [|r rs IH]; intros h Hreach Hrun; [exact Hreach|].
  cbn in Hrun |- *.
  destruct (HashTable.insert h r) as [[h' pos]|e] eqn:Hins; [|discriminate].
  apply IH; [|exact Hrun]. exact (reach_insert h h' r pos Hreach Hins).
Qed.

Lemma runs_direct_reachable (h : HashTable.t) (rs : list Employee) :
  reachable_direct h -> runs_direct h rs = true -> reachable_direct (after h rs).
Proof.
  revert h. induction rs as [|r rs IH]; intros h Hreach Hrun; [exact Hreach|].
  cbn in Hrun |- *. apply andb_prop in Hrun. destruct Hrun as [Hfb Hrun].
  destruct (HashTable.insert h r) as [[h' pos]|e] eqn:Hins; [|discriminate].
  apply IH; [|exact Hrun].
  apply (direct_insert h h' r pos Hreach); [|exact Hins].
  destruct (falls_back h r); [discriminate|reflexivity].
Qed.

(** ** The hash function *)

(** C8: for a capacity above zero and any id, negative ones included,
    [hash_function] returns the non-negative remainder of the id by the
    capacity: a value of [0, capacity) that differs from the id by a
    multiple of the capacity. *)
Theorem hash_function_range (h : HashTable.t) (emp_id : Z) :
  0 < HashTable.size h ->
  exists idx q, HashTable.hash_function h emp_id = Ok idx /\
    0 <= idx < HashTable.size h /\
    emp_id = q * HashTable.size h + idx.
Proof.
  intros Hn. exists (emp_id mod HashTable.size h), (emp_id / HashTable.size h).
  split; [unfold HashTable.hash_function; apply py_mod_ok; lia|].
  split; [apply Z.mod_pos_bound; exact Hn|].
  rewrite Z.mul_comm. apply Z.div_mod. lia.
Qed.

Lemma hash_function_range_witness :
  0 < HashTable.size (HashTable.new 20) /\
  exists idx q, HashTable.hash_function (HashTable.new 20) (-3) = Ok idx /\
    0 <= idx < HashTable.size (HashTable.new 20) /\
    -3 = q * HashTable.size (HashTable.new 20) + idx.
Proof.
  split; [cbn; lia|]. apply (hash_function_range (HashTable.new 20) (-3)). cbn; lia.
Defined.

Example hash_function_negative :
  HashTable.hash_function (HashTable.new 20) (-3) = Ok 17.
Proof. reflexivity. Qed.

(** ** Insertion *)

(** C1: in a table of capacity above zero, [insert] probes the positions
    [(hashOf(id) + i) mod capacity] for [i = 0 .. capacity-1].  At the first
    position that is empty or holds a record of the same id it writes the
    record there and returns that position; when all the positions hold
    records of other ids it writes the record at the hash position and
    returns it. *)
Theorem insert_probes (h : HashTable.t) (r : Employee) :
  wf h -> 0 < HashTable.size h ->
  exists idx, HashTable.hash_function h (id r) = Ok idx /\
    (forall i, 0 <= i < HashTable.size h ->
       (forall j, 0 <= j < i ->
          busy_other h (id r) ((idx + j) mod HashTable.size h)) ->
       (empty_at h ((idx + i) mod HashTable.size h) \/
        exists s, holds_at h ((idx + i) mod HashTable.size h) s /\ id s = id r) ->
       HashTable.insert h r
       = Ok (store h ((idx + i) mod HashTable.size h) r,
             (idx + i) mod HashTable.size h)) /\
    ((forall j, 0 <= j < HashTable.size h ->
        busy_other h (id r) ((idx + j) mod HashTable.size h)) ->
     HashTable.insert h r = Ok (store h idx r, idx)).
Proof.
  intros Hwf Hn. exists (id r mod HashTable.size h).
  split; [unfold HashTable.hash_function; apply py_mod_ok; lia|]. split.
  - intros i Hi Hbefore Hstop.
    apply (insert_first_stop h r i Hwf Hn Hi Hbefore Hstop).
  - intros Hall. apply (insert_all_busy h r Hwf Hn Hall).
Qed.

Lemma insert_probes_witness :
  wf table_2_7_12 /\ 0 < HashTable.size table_2_7_12 /\
  exists idx, HashTable.hash_function table_2_7_12 (id (emp 17)) = Ok idx /\
    (forall i, 0 <= i < HashTable.size table_2_7_12 ->
       (forall j, 0 <= j < i ->
          busy_other table_2_7_12 (id (emp 17))
            ((idx + j) mod HashTable.size table_2_7_12)) ->
       (empty_at table_2_7_12 ((idx + i) mod HashTable.size table_2_7_12) \/
        exists s, holds_at table_2_7_12
                    ((idx + i) mod HashTable.size table_2_7_12) s /\
                  id s = id (emp 17)) ->
       HashTable.insert table_2_7_12 (emp 17)
       = Ok (store table_2_7_12 ((idx + i) mod HashTable.size table_2_7_12) (emp 17),
             (idx + i) mod HashTable.size table_2_7_12)) /\
    ((forall j, 0 <= j < HashTable.size table_2_7_12 ->
        busy_other table_2_7_12 (id (emp 17))
          ((idx + j) mod HashTable.size table_2_7_12)) ->
     HashTable.insert table_2_7_12 (emp 17) = Ok (store table_2_7_12 idx (emp 17), idx)).
Proof.
  split; [reflexivity|]. split; [reflexivity|].
  apply (insert_probes table_2_7_12 (emp 17)); reflexivity.
Defined.

(** The capacity example: the ids 2, 7 and 12 land in the slots 2, 3, 4. *)
Example insert_2_7_12 :
  HashTable.table table_2_7_12
  = [None; None; Some (emp 2); Some (emp 7); Some (emp 12)].
Proof. reflexivity. Qed.

(** With the slots 2, 3 and 4 taken, the id 17 wraps around to slot 0. *)
Example insert_17_wraps :
  exists h', HashTable.insert table_2_7_12 (emp 17) = Ok (h', 0).
Proof. eexists. reflexivity. Qed.

(** In a full table a new id overwrites the slot of its hash. *)
Example insert_full_overwrites :
  HashTable.insert table_full (emp 3)
  = Ok ({| HashTable.size := 2; HashTable.table := [Some (emp 0); Some (emp 3)] |}, 1).
Proof. reflexivity. Qed.

(** C10: one call of [insert] on a table of capacity above zero returns, and
    the number of occupied slots does not go down and goes up by at most
    one.  It stays the same when the full-table fallback overwrites a slot
    and when a record of the same id is replaced; it goes up by one when
    the record lands in an empty slot. *)
Theorem insert_occupied (h : HashTable.t) (r : Employee) :
  wf h -> 0 < HashTable.size h ->
  exists h' pos, HashTable.insert h r = Ok (h', pos) /\
    (occupied h <= occupied h' <= occupied h + 1)%nat /\
    (falls_back h r = true -> occupied h' = occupied h) /\
    (forall old, holds_at h pos old -> id old = id r -> occupied h' = occupied h) /\
    (empty_at h pos -> occupied h' = S (occupied h)).
Proof.
  intros Hwf Hn.
  destruct (insert_cases h r Hwf Hn)
    as [[i [Hi [Hbefore [Hstop [Hres Hfb]]]]]|[Hall [Hres Hfb]]];
    rewrite Hres, Hfb; eexists _, _; (split; [reflexivity|]).
  - destruct Hstop as [He|[s [Hs Hid]]].
    + pose proof (occupied_store_empty h _ r He) as Hocc. rewrite Hocc.
      split; [lia|]. split; [discriminate|]. split; [|reflexivity].
      intros old Hold _. unfold holds_at, empty_at in *. congruence.
    + pose proof (occupied_store_held h _ r s Hs) as Hocc. rewrite Hocc.
      split; [lia|]. split; [reflexivity|]. split; [reflexivity|].
      intros He. unfold holds_at, empty_at in *. congruence.
  - destruct (Hall 0) as [s [Hs Hne]]; [lia|].
    rewrite probe_zero in Hs by exact Hn.
    pose proof (occupied_store_held h _ r s Hs) as Hocc. rewrite Hocc.
    split; [lia|]. split; [reflexivity|]. split; [reflexivity|].
    intros He. unfold holds_at, empty_at in *. congruence.
Qed.

Lemma insert_occupied_witness :
  wf table_full /\ 0 < HashTable.size table_full /\
  exists h' pos, HashTable.insert table_full (emp 2) = Ok (h', pos) /\
    (occupied table_full <= occupied h' <= occupied table_full + 1)%nat /\
    (falls_back table_full (emp 2) = true -> occupied h' = occupied table_full) /\
    (forall old, holds_at table_full pos old -> id old = id (emp 2) ->
       occupied h' = occupied table_full) /\
    (empty_at table_full pos -> occupied h' = S (occupied table_full)).
Proof.
  split; [reflexivity|]. split; [reflexivity|].
  apply (insert_occupied table_full (emp 2)); reflexivity.
Defined.

(** ** Uniqueness of ids *)

(** C2: in every table reached from an empty one by calls of [insert], the
    calls that took the full-table fallback included, no two distinct slots
    hold records of the same id. *)
Theorem reachable_unique_ids (h : HashTable.t) : reachable h -> unique_ids h.
Proof.
  intros Hreach. destruct (reachable_invariant h Hreach) as [Hwf Hfind].
  apply findable_unique; assumption.
Qed.

Lemma reachable_unique_ids_witness :
  reachable (after table_full [emp 2; emp 5; emp 2]) /\
  unique_ids (after table_full [emp 2; emp 5; emp 2]).
Proof.
  assert (reachable (after table_full [emp 2; emp 5; emp 2])) as Hreach.
  { apply runs_reachable; [|reflexivity].
    apply (runs_reachable (HashTable.new 2) [emp 0; emp 1]); [|reflexivity].
    apply reach_new. }
  split; [exact Hreach|]. apply reachable_unique_ids. exact Hreach.
Defined.

(** ** Replacement *)

(** C5: when a reachable table holds a record of id [k] in slot [s],
    inserting another record of id [k] writes it to slot [s], returns [s],
    leaves every other slot as it was and leaves the number of occupied
    slots unchanged. *)
Theorem insert_replaces (h : HashTable.t) (s : nat) (old r : Employee) :
  reachable h ->
  HashTable.table h !! s = Some (Some old) ->
  id r = id old ->
  exists h', HashTable.insert h r = Ok (h', Z.of_nat s) /\
    HashTable.table h' !! s = Some (Some r) /\
    (forall q, q <> s -> HashTable.table h' !! q = HashTable.table h !! q) /\
    occupied h' = occupied h.
Proof.
  intros Hreach Hs Hid. destruct (reachable_invariant h Hreach) as [Hwf Hfind].
  assert (0 < HashTable.size h) as Hn.
  { apply lookup_lt_Some in Hs. unfold wf in Hwf. lia. }
  destruct (Hfind s old Hs) as [i [Hi [Hpos Hbefore]]].
  rewrite <- Hid in Hpos, Hbefore.
  pose proof (probe_range h (id r) i Hn) as HP.
  assert (holds_at h (probe h (id r) i) old) as Hold.
  { unfold holds_at. rewrite Hpos. exact Hs. }
  destruct (insert_first_stop h r i Hwf Hn Hi Hbefore) as [Hres _].
  { right. exists old. split; [exact Hold|congruence]. }
  exists (store h (probe h (id r) i) r).
  replace (Z.of_nat s) with (probe h (id r) i) by lia.
  split; [exact Hres|]. split; [|split].
  - rewrite <- Hpos. apply store_same; assumption.
  - intros q Hq. apply store_other. congruence.
  - apply (occupied_store_held h _ r old Hold).
Qed.

Lemma insert_replaces_witness :
  reachable table_2_7_12 /\
  HashTable.table table_2_7_12 !! 3%nat = Some (Some (emp 7)) /\
  id (mkEmployee 7 "Ann" "CSE" 9 10 900 7) = id (emp 7) /\
  exists h', HashTable.insert table_2_7_12 (mkEmployee 7 "Ann" "CSE" 9 10 900 7)
             = Ok (h', Z.of_nat 3) /\
    HashTable.table h' !! 3%nat = Some (Some (mkEmployee 7 "Ann" "CSE" 9 10 900 7)) /\
    (forall q, q <> 3%nat ->
       HashTable.table h' !! q = HashTable.table table_2_7_12 !! q) /\
    occupied h' = occupied table_2_7_12.
Proof.
  assert (reachable table_2_7_12) as Hreach.
  { apply runs_reachable; [apply reach_new|reflexivity]. }
  split; [exact Hreach|]. split; [reflexivity|]. split; [reflexivity|].
  apply (insert_replaces table_2_7_12 3 (emp 7)); [exact Hreach|reflexivity|reflexivity].
Defined.

(** ** Lookup *)

Lemma slot_at_empty (h : HashTable.t) (p : Z) : empty_at h p -> slot_at h p = None.
Proof. unfold empty_at, slot_at. intros ->. reflexivity. Qed.

Lemma slot_at_holds (h : HashTable.t) (p : Z) (s : Employee) :
  holds_at h p s -> slot_at h p = Some s.
Proof. unfold holds_at, slot_at. intros ->. reflexivity. Qed.

Lemma range_succ (i : nat) : range (Z.of_nat i + 1) = map Z.of_nat (seq 0 (S i)).
Proof. unfold range. f_equal. f_equal. lia. Qed.

Lemma get_cases (h : HashTable.t) (k : Z) :
  wf h -> 0 < HashTable.size h ->
  (exists i, 0 <= i < HashTable.size h /\
     (forall j, 0 <= j < i -> busy_other h k (probe h k j)) /\
     stops_at h k (probe h k i) /\
     HashTable.get h k
     = Ok (slot_at h (probe h k i), map (trace_entry h k) (range (i + 1))))
  \/
  ((forall j, 0 <= j < HashTable.size h -> busy_other h k (probe h k j)) /\
   HashTable.get h k = Ok (None, map (trace_entry h k) (range (HashTable.size h)))).
Proof.
  intros Hwf Hn. unfold HashTable.get, HashTable.hash_function.
  rewrite py_mod_ok by lia. cbn [bind]. unfold range at 1 3.
  destruct (get_loop_seq h Hwf Hn k (Z.to_nat (HashTable.size h)) 0 [])
    as [[Hnone Hall]|[i [Hi [Hbefore [Hstop Hres]]]]].
  - right. split; [intros j Hj; apply Hall; lia|]. exact Hnone.
  - left. exists (Z.of_nat i). split; [lia|].
    split; [intros j Hj; apply Hbefore; lia|]. split; [exact Hstop|].
    rewrite Hres, range_succ, Nat.sub_0_r. reflexivity.
Qed.

(** C3: in a table of capacity above zero, [get] visits the positions
    [(hashOf(id) + i) mod capacity] for [i = 0, 1, ...] and stops at the
    first one that is empty or holds a record of that id.  Its trace is the
    list of the positions visited, each with what the slot holds, in that
    order; it returns the record when it stopped at one of that id, and
    [None] when it stopped at an empty slot or visited the whole table. *)
Theorem get_trace (h : HashTable.t) (emp_id : Z) :
  wf h -> 0 < HashTable.size h ->
  exists idx, HashTable.hash_function h emp_id = Ok idx /\
    let pos i := (idx + i) mod HashTable.size h in
    let visited m := map (fun i => (pos i, slot_at h (pos i))) (range m) in
    (forall i, 0 <= i < HashTable.size h ->
       (forall j, 0 <= j < i -> busy_other h emp_id (pos j)) ->
       (empty_at h (pos i) ->
        HashTable.get h emp_id = Ok (None, visited (i + 1))) /\
       (forall s, holds_at h (pos i) s -> id s = emp_id ->
        HashTable.get h emp_id = Ok (Some s, visited (i + 1)))) /\
    ((forall j, 0 <= j < HashTable.size h -> busy_other h emp_id (pos j)) ->
     HashTable.get h emp_id = Ok (None, visited (HashTable.size h))).
Proof.
  intros Hwf Hn. exists (emp_id mod HashTable.size h).
  split; [unfold HashTable.hash_function; apply py_mod_ok; lia|].
  cbv zeta. fold (probe h emp_id). fold (trace_entry h emp_id).
  assert (forall i, 0 <= i < HashTable.size h ->
            (forall j, 0 <= j < i -> busy_other h emp_id (probe h emp_id j)) ->
            stops_at h emp_id (probe h emp_id i) ->
            HashTable.get h emp_id
            = Ok (slot_at h (probe h emp_id i),
                  map (trace_entry h emp_id) (range (i + 1)))) as Hfirst.
  { intros i Hi Hbefore Hstop.
    destruct (get_cases h emp_id Hwf Hn)
      as [[i' [Hi' [Hbefore' [Hstop' Hres]]]]|[Hall _]].
    - assert (i' = i) as ->; [|exact Hres].
      destruct (Z.lt_trichotomy i' i) as [Hlt|[Heq|Hgt]]; [|exact Heq|].
      + exfalso. apply (busy_not_stops h emp_id (probe h emp_id i')); [|exact Hstop'].
        apply Hbefore. lia.
      + exfalso. apply (busy_not_stops h emp_id (probe h emp_id i)); [|exact Hstop].
        apply Hbefore'. lia.
    - exfalso. apply (busy_not_stops h emp_id (probe h emp_id i)); [|exact Hstop].
      apply Hall. exact Hi. }
  split.
  - intros i Hi Hbefore. split.
    + intros He. rewrite <- (slot_at_empty h _ He).
      apply Hfirst; [exact Hi|exact Hbefore|left; exact He].
    + intros s Hs Hid. rewrite <- (slot_at_holds h _ s Hs).
      apply Hfirst; [exact Hi|exact Hbefore|right; exists s; split; assumption].
  - intros Hall.
    destruct (get_cases h emp_id Hwf Hn) as [[i [Hi [_ [Hstop _]]]]|[_ Hres]].
    + exfalso. apply (busy_not_stops h emp_id (probe h emp_id i)); [|exact Hstop].
      apply Hall. exact Hi.
    + exact Hres.
Qed.

Lemma get_trace_witness :
  wf table_2_7_12 /\ 0 < HashTable.size table_2_7_12 /\
  exists idx, HashTable.hash_function table_2_7_12 12 = Ok idx /\
    let pos i := (idx + i) mod HashTable.size table_2_7_12 in
    let visited m := map (fun i => (pos i, slot_at table_2_7_12 (pos i))) (range m) in
    (forall i, 0 <= i < HashTable.size table_2_7_12 ->
       (forall j, 0 <= j < i -> busy_other table_2_7_12 12 (pos j)) ->
       (empty_at table_2_7_12 (pos i) ->
        HashTable.get table_2_7_12 12 = Ok (None, visited (i + 1))) /\
       (forall s, holds_at table_2_7_12 (pos i) s -> id s = 12 ->
        HashTable.get table_2_7_12 12 = Ok (Some s, visited (i + 1)))) /\
    ((forall j, 0 <= j < HashTable.size table_2_7_12 ->
        busy_other table_2_7_12 12 (pos j)) ->
     HashTable.get table_2_7_12 12 = Ok (None, visited (HashTable.size table_2_7_12))).
Proof.
  split; [reflexivity|]. split; [reflexivity|].
  apply (get_trace table_2_7_12 12); reflexivity.
Defined.

(** The capacity example: looking up the id 12 visits the slots 2, 3, 4. *)
Example get_12_trace :
  HashTable.get table_2_7_12 12
  = Ok (Some (emp 12), [(2, Some (emp 2)); (3, Some (emp 7)); (4, Some (emp 12))]).
Proof. reflexivity. Qed.

(** An id that is not stored: the probe ends at the first empty slot. *)
Example get_17_trace :
  HashTable.get table_2_7_12 17
  = Ok (None, [(2, Some (emp 2)); (3, Some (emp 7)); (4, Some (emp 12)); (0, None)]).
Proof. reflexivity. Qed.

(** ** Rebuilding from the snapshot *)

Lemma flatten_length_le (l : list (option Employee)) :
  (length (omap (fun slot => slot) l) <= length l)%nat.
Proof. induction l as [|[s|] l IH]; cbn; lia. Qed.

Lemma flatten_length_full (l : list (option Employee)) :
  (forall q x, l !! q = Some x -> x <> None) ->
  length (omap (fun slot => slot) l) = length l.
Proof.
  induction l as [|x l IH]; intros Hall; [reflexivity|].
  destruct x as [s|].
  - cbn. f_equal. apply IH. intros q x Hq. apply (Hall (S q) x). exact Hq.
  - exfalso. apply (Hall 0%nat None); reflexivity.
Qed.

Lemma all_busy_full (h : HashTable.t) (k : Z) :
  wf h -> 0 < HashTable.size h ->
  (forall j, 0 <= j < HashTable.size h -> busy_other h k (probe h k j)) ->
  occupied h = length (HashTable.table h).
Proof.
  intros Hwf Hn Hall. unfold occupied, HashTable.flatten.
  apply flatten_length_full. intros q x Hq ->.
  destruct (slot_is_probe h k q None Hwf Hn Hq) as [i [Hi Hiq]].
  destruct (Hall i Hi) as [s [Hs _]]. unfold holds_at in Hs.
  rewrite Hiq, Hq in Hs. discriminate.
Qed.

Lemma unique_ids_NoDup (l : list (option Employee)) :
  (forall (p q : nat) (s1 s2 : Employee),
     l !! p = Some (Some s1) -> l !! q = Some (Some s2) -> id s1 = id s2 -> p = q) ->
  NoDup (map id (omap (fun slot => slot) l)).
Proof.
  induction l as [|x l IH]; intros Huniq; [constructor|].
  assert (NoDup (map id (omap (fun slot => slot) l))) as Htail.
  { apply IH. intros p q s1 s2 Hp Hq Hid.
    assert (S p = S q) as Heq by (apply (Huniq (S p) (S q) s1 s2); assumption).
    congruence. }
  destruct x as [s|]; [|exact Htail].
  cbn. constructor; [|exact Htail].
  intros Hin. apply list_elem_of_In, in_map_iff in Hin.
  destruct Hin as [s' [Hid Hin]]. apply list_elem_of_In, list_elem_of_omap in Hin.
  destruct Hin as [[x|] [Hx Hsome]]; [|discriminate]. injection Hsome as ->.
  apply list_elem_of_lookup in Hx. destruct Hx as [q Hq].
  assert (0%nat = S q) as Heq; [|discriminate].
  apply (Huniq 0%nat (S q) s s'); [reflexivity|exact Hq|congruence].
Qed.

(** Inserting records of new, pairwise distinct ids into a table with room
    for them adds exactly these records. *)
Lemma insert_all_fresh (rs : list Employee) (h : HashTable.t) :
  wf h ->
  NoDup (map id rs) ->
  (forall r p s, r ∈ rs -> HashTable.table h !! p = Some (Some s) -> id s <> id r) ->
  (occupied h + length rs <= length (HashTable.table h))%nat ->
  exists h', insert_all h rs = Ok h' /\
    HashTable.flatten h' ≡ₚ HashTable.flatten h ++ rs.
Proof.
  revert h. induction rs as [|r rs IH]; intros h Hwf Hnd Hfresh Hroom.
  - exists h. split; [reflexivity|]. rewrite app_nil_r. reflexivity.
  - assert (0 < HashTable.size h) as Hn.
    { unfold wf in Hwf. cbn in Hroom. lia. }
    cbn [insert_all].
    destruct (insert_cases h r Hwf Hn)
      as [[i [Hi [_ [Hstop [Hres _]]]]]|[Hall _]].
    + destruct Hstop as [He|[s [Hs Hid]]].
      * rewrite Hres. cbn [bind fst].
        pose proof (probe_range h (id r) i Hn) as HP.
        inversion Hnd as [|? ? Hnotin Hnd']; subst.
        destruct (IH (store h (probe h (id r) i) r)) as [h' [Hh' Hperm]].
        -- apply store_wf. exact Hwf.
        -- exact Hnd'.
        -- intros r' p s Hr' Hp.
           destruct (Nat.eq_dec p (Z.to_nat (probe h (id r) i))) as [->|Hne].
           ++ rewrite store_same in Hp by assumption. injection Hp as <-.
              intros Heq. apply Hnotin. rewrite Heq.
              apply list_elem_of_In, in_map, list_elem_of_In. exact Hr'.
           ++ rewrite store_other in Hp by exact Hne.
              apply (Hfresh r' p s); [apply list_elem_of_further; exact Hr'|exact Hp].
        -- rewrite (occupied_store_empty h _ r He).
           unfold store. cbn. rewrite length_insert. cbn in Hroom. lia.
        -- exists h'. split; [exact Hh'|]. rewrite Hperm.
           unfold HashTable.flatten at 1, store. cbn.
           rewrite (flatten_store_empty _ _ r He).
           fold (HashTable.flatten h). cbn.
           apply Permutation_middle.
      * exfalso.
        apply (Hfresh r (Z.to_nat (probe h (id r) i)) s);
          [apply list_elem_of_here|exact Hs|exact Hid].
    + exfalso. pose proof (all_busy_full h (id r) Hwf Hn Hall). cbn in Hroom. lia.
Qed.

Lemma clear_flatten (h : HashTable.t) : HashTable.flatten (HashTable.clear h) = [].
Proof.
  unfold HashTable.flatten, HashTable.clear. cbn.
  induction (Z.to_nat (HashTable.size h)) as [|m IH]; [reflexivity|exact IH].
Qed.

(** *** Rebuilding a table without wrapped probes *)

Lemma refilled_wf (h : HashTable.t) (k : nat) :
  wf h -> (k <= length (HashTable.table h))%nat -> wf (refilled h k).
Proof.
  unfold wf, refilled. cbn. intros Hwf Hk.
  rewrite length_app, length_take_le, length_replicate by exact Hk. lia.
Qed.

Lemma refilled_kept (h : HashTable.t) (k q : nat) :
  (q < k)%nat -> (k <= length (HashTable.table h))%nat ->
  HashTable.table (refilled h k) !! q = HashTable.table h !! q.
Proof.
  intros Hq Hk. unfold refilled. cbn.
  rewrite lookup_app_l by (rewrite length_take_le by exact Hk; exact Hq).
  apply lookup_take_lt. exact Hq.
Qed.

Lemma refilled_emptied (h : HashTable.t) (k q : nat) :
  (k <= q)%nat -> (q < length (HashTable.table h))%nat ->
  HashTable.table (refilled h k) !! q = Some None.
Proof.
  intros Hk Hq. unfold refilled. cbn.
  rewrite lookup_app_r by (rewrite length_take_le by lia; exact Hk).
  apply lookup_replicate_2. rewrite length_take_le by lia. lia.
Qed.

Lemma refilled_next (h : HashTable.t) (k : nat) (x : option Employee) :
  HashTable.table h !! k = Some x ->
  HashTable.table (refilled h (S k))
  = <[k := x]> (HashTable.table (refilled h k)).
Proof.
  intros Hk. pose proof (lookup_lt_Some _ _ _ Hk) as Hlt. unfold refilled. cbn.
  rewrite insert_app_r_alt by (rewrite length_take_le by lia; lia).
  rewrite length_take_le, Nat.sub_diag by lia.
  replace (length (HashTable.table h) - k)%nat
    with (S (length (HashTable.table h) - S k)) by lia.
  cbn. rewrite (take_S_r _ _ _ Hk), <- app_assoc. reflexivity.
Qed.

Lemma refilled_all (h : HashTable.t) : refilled h (length (HashTable.table h)) = h.
Proof.
  destruct h as [n l]. unfold refilled. cbn.
  rewrite take_ge, Nat.sub_diag, app_nil_r by lia. reflexivity.
Qed.

Lemma refilled_none (h : HashTable.t) : wf h -> refilled h 0 = HashTable.clear h.
Proof.
  unfold wf, refilled, HashTable.clear. intros ->. cbn.
  rewrite Nat.sub_0_r. reflexivity.
Qed.

(** With the first [k] slots refilled, the record of slot [k] lands in slot
    [k]. *)
Lemma refill_step (h : HashTable.t) (k : nat) (s : Employee) :
  wf h -> findable h -> no_wrap h ->
  HashTable.table h !! k = Some (Some s) ->
  HashTable.insert (refilled h k) s = Ok (refilled h (S k), Z.of_nat k).
Proof.
  intros Hwf Hfind Hnowrap Hk.
  pose proof (lookup_lt_Some _ _ _ Hk) as Hlt.
  assert (0 < HashTable.size h) as Hn by (unfold wf in Hwf; lia).
  destruct (Hfind k s Hk) as [i [Hi [Hpos Hbefore]]].
  pose proof (Hnowrap k s Hk) as Hhash.
  pose proof (probe_range h (id s) i Hn) as HPi.
  pose proof (Z.mod_pos_bound (id s) (HashTable.size h) Hn) as Hmod.
  assert (probe h (id s) i = Z.of_nat k) as Hprobe by lia.
  assert (id s mod HashTable.size h + i = Z.of_nat k) as Hsum.
  { unfold wf in Hwf. destruct (probe_cases h (id s) i Hn Hi); lia. }
  destruct (insert_first_stop (refilled h k) s i) as [Hres _].
  - apply refilled_wf; [exact Hwf|lia].
  - exact Hn.
  - exact Hi.
  - intros j Hj. change (probe (refilled h k)) with (probe h).
    destruct (Hbefore j Hj) as [s' [Hs' Hne]]. exists s'. split; [|exact Hne].
    unfold holds_at in *. rewrite refilled_kept; [exact Hs'| |lia].
    pose proof (probe_range h (id s) j Hn).
    destruct (probe_cases h (id s) j Hn ltac:(lia)); lia.
  - left. unfold empty_at. change (probe (refilled h k)) with (probe h).
    rewrite Hprobe, Nat2Z.id. apply refilled_emptied; [lia|exact Hlt].
  - change (probe (refilled h k)) with (probe h) in Hres. rewrite Hprobe in Hres.
    rewrite Hres. f_equal. f_equal. unfold store. rewrite Nat2Z.id.
    change (refilled h (S k))
      with {| HashTable.size := HashTable.size h;
              HashTable.table := HashTable.table (refilled h (S k)) |}.
    rewrite (refilled_next h k (Some s) Hk). reflexivity.
Qed.

Lemma refill_rest (h : HashTable.t) (m k : nat) :
  wf h -> findable h -> no_wrap h ->
  (k + m = length (HashTable.table h))%nat ->
  insert_all (refilled h k) (omap (fun slot => slot) (drop k (HashTable.table h)))
  = Ok h.
Proof.
  intros Hwf Hfind Hnowrap. revert k. induction m as [|m IH]; intros k Hkm.
  - rewrite drop_ge by lia. cbn. replace k with (length (HashTable.table h)) by lia.
    rewrite refilled_all. reflexivity.
  - destruct (lookup_lt_is_Some_2 (HashTable.table h) k) as [x Hx]; [lia|].
    rewrite (drop_S _ _ _ Hx). destruct x as [s|]; cbn [omap list_omap].
    + cbn [insert_all]. rewrite (refill_step h k s Hwf Hfind Hnowrap Hx).
      cbn [bind fst]. apply IH. lia.
    + assert (refilled h (S k) = refilled h k) as Hsame.
      { change (refilled h (S k))
          with {| HashTable.size := HashTable.size h;
                  HashTable.table := HashTable.table (refilled h (S k)) |}.
        rewrite (refilled_next h k None Hx).
        rewrite list_insert_id; [reflexivity|].
        apply refilled_emptied; [lia|]. apply (lookup_lt_Some _ _ _ Hx). }
      rewrite <- Hsame. apply IH. lia.
Qed.

Lemma rebuild_no_wrap (h : HashTable.t) :
  wf h -> findable h -> no_wrap h ->
  rebuild_hashtable_from_list h (HashTable.flatten h) = Ok h.
Proof.
  intros Hwf Hfind Hnowrap. unfold rebuild_hashtable_from_list, HashTable.flatten.
  rewrite <- (refilled_none h Hwf).
  exact (refill_rest h (length (HashTable.table h)) 0 Hwf Hfind Hnowrap eq_refl).
Qed.

(** C4, as the code has it: for every table reached from an empty one by
    calls of [insert] of which none took the full-table fallback,
    rebuilding the table from its snapshot returns.  When no probe wrapped
    around the end of the table (every record sits at or after the slot of
    its hash) the rebuilt table is the table itself, so its snapshot is the
    identical sequence.  When a probe wrapped, the snapshot of the rebuilt
    table holds the same records, but their order may differ. *)
Theorem rebuild_same_records (h : HashTable.t) :
  reachable_direct h ->
  exists h', rebuild_hashtable_from_list h (HashTable.flatten h) = Ok h' /\
    HashTable.flatten h' ≡ₚ HashTable.flatten h /\
    (no_wrap h -> h' = h /\ HashTable.flatten h' = HashTable.flatten h).
Proof.
  intros Hdirect. pose proof (reachable_direct_reachable h Hdirect) as Hreach.
  destruct (reachable_invariant h Hreach) as [Hwf Hfind].
  pose proof (findable_unique h Hwf Hfind) as Huniq.
  unfold rebuild_hashtable_from_list.
  destruct (insert_all_fresh (HashTable.flatten h) (HashTable.clear h))
    as [h' [Hh' Hperm]].
  - unfold wf, HashTable.clear. cbn. apply length_replicate.
  - apply unique_ids_NoDup. exact Huniq.
  - intros r p s _ Hp. exfalso. unfold HashTable.clear in Hp. cbn in Hp.
    apply lookup_replicate in Hp. destruct Hp as [Hp _]. discriminate.
  - unfold occupied. rewrite clear_flatten. cbn.
    unfold HashTable.clear. cbn. rewrite length_replicate.
    unfold wf in Hwf. rewrite <- Hwf. apply flatten_length_le.
  - exists h'. split; [exact Hh'|].
    split; [rewrite Hperm, clear_flatten; reflexivity|].
    intros Hnowrap. pose proof (rebuild_no_wrap h Hwf Hfind Hnowrap) as Hsame.
    unfold rebuild_hashtable_from_list in Hsame. rewrite Hh' in Hsame.
    injection Hsame as ->. split; reflexivity.
Qed.

Lemma table_2_7_12_no_wrap : no_wrap table_2_7_12.
Proof.
  intros p s Hp.
  do 5 (destruct p as [|p];
        [cbn in Hp; try discriminate; injection Hp as <-;
         vm_compute; intros Hc; discriminate Hc|]).
  discriminate.
Defined.

Lemma rebuild_same_records_witness :
  reachable_direct table_2_7_12 /\
  exists h', rebuild_hashtable_from_list table_2_7_12 (HashTable.flatten table_2_7_12)
             = Ok h' /\
    HashTable.flatten h' ≡ₚ HashTable.flatten table_2_7_12 /\
    (no_wrap table_2_7_12 ->
     h' = table_2_7_12 /\ HashTable.flatten h' = HashTable.flatten table_2_7_12).
Proof.
  assert (reachable_direct table_2_7_12) as Hdirect.
  { apply runs_direct_reachable; [apply direct_new|reflexivity]. }
  split; [exact Hdirect|]. apply rebuild_same_records. exact Hdirect.
Defined.

(** The capacity example rebuilt from its snapshot: no probe wrapped, and
    the table comes back slot by slot. *)
Example rebuild_2_7_12 :
  no_wrap table_2_7_12 /\
  rebuild_hashtable_from_list table_2_7_12 (HashTable.flatten table_2_7_12)
  = Ok table_2_7_12.
Proof. split; [exact table_2_7_12_no_wrap|reflexivity]. Qed.

(** C4, as stated, fails: with capacity 20 the ids 19 and 39 are stored in
    the slots 19 and 0, so the snapshot lists 39 before 19; rebuilding from
    it stores 39 in slot 19 and 19 in slot 0, and the snapshot then lists 19
    before 39. *)
Lemma rebuild_reorders_snapshot :
  reachable_direct table_wrapped /\
  HashTable.flatten table_wrapped = [emp 39; emp 19] /\
  exists h', rebuild_hashtable_from_list table_wrapped (HashTable.flatten table_wrapped)
             = Ok h' /\
    HashTable.flatten h' = [emp 19; emp 39] /\
    HashTable.flatten h' <> HashTable.flatten table_wrapped.
Proof.
  split; [apply runs_direct_reachable; [apply direct_new|reflexivity]|].
  split; [reflexivity|]. eexists. split; [reflexivity|].
  split; [reflexivity|]. vm_compute. discriminate.
Qed.

(** ** Sorting by percentage *)

Section StableSort.

Context {A : Type}.
Variable key : A -> Z.

Let key_le (a b : A) : Prop := key a <= key b.
Let has_key (p : Z) (a : A) : bool := key a =? p.

Lemma insert_by_perm (x : A) (l : list A) : Permutation (insert_by key x l) (x :: l).
Proof.
  induction l as [|y l IH]; cbn; [reflexivity|].
  destruct (key y <? key x); [|reflexivity].
  rewrite IH. apply perm_swap.
Qed.

Lemma stable_sort_perm (l : list A) : Permutation (stable_sort key l) l.
Proof.
  induction l as [|x l IH]; cbn; [reflexivity|].
  rewrite insert_by_perm. apply perm_skip. exact IH.
Qed.

Lemma insert_by_sorted (x : A) (l : list A) :
  StronglySorted key_le l -> StronglySorted key_le (insert_by key x l).
Proof.
  induction l as [|y l IH]; intros Hs; cbn.
  - constructor; constructor.
  - apply StronglySorted_inv in Hs. destruct Hs as [Hs Hy].
    destruct (Z.ltb_spec (key y) (key x)) as [Hlt|Hge].
    + constructor; [apply IH; exact Hs|].
      apply (Permutation_Forall (Permutation_sym (insert_by_perm x l))).
      constructor; [unfold key_le; lia|exact Hy].
    + constructor; [constructor; assumption|].
      constructor; [exact Hge|].
      revert Hy. apply List.Forall_impl.
      intros z Hz. unfold key_le in *. lia.
Qed.

Lemma stable_sort_sorted (l : list A) : StronglySorted key_le (stable_sort key l).
Proof.
  induction l as [|x l IH]; cbn; [constructor|].
  apply insert_by_sorted. exact IH.
Qed.

Lemma filter_insert_by (p : Z) (x : A) (l : list A) :
  List.filter (has_key p) (insert_by key x l) = List.filter (has_key p) (x :: l).
Proof.
  induction l as [|y l IH]; cbn; [reflexivity|].
  destruct (Z.ltb_spec (key y) (key x)) as [Hlt|Hge]; [|reflexivity].
  cbn. rewrite IH. cbn. unfold has_key.
  destruct (Z.eqb_spec (key y) p), (Z.eqb_spec (key x) p); try reflexivity.
  lia.
Qed.

Lemma filter_stable_sort (p : Z) (l : list A) :
  List.filter (has_key p) (stable_sort key l) = List.filter (has_key p) l.
Proof.
  induction l as [|x l IH]; cbn; [reflexivity|].
  rewrite filter_insert_by. cbn. rewrite IH. reflexivity.
Qed.

Lemma sorted_snoc (R : A -> A -> Prop) (l : list A) (x : A) :
  StronglySorted R l -> Forall (fun y => R y x) l -> StronglySorted R (l ++ [x]).
Proof.
  induction 1 as [|a l Hs IH Ha]; intros Hx; cbn.
  - constructor; constructor.
  - apply Forall_cons_iff in Hx. destruct Hx as [Hax Hx].
    constructor; [apply IH; exact Hx|].
    apply Forall_app. split; [exact Ha|]. constructor; [exact Hax|constructor].
Qed.

Lemma sorted_rev (R : A -> A -> Prop) (l : list A) :
  StronglySorted R l -> StronglySorted (fun a b => R b a) (rev l).
Proof.
  induction 1 as [|a l Hs IH Ha]; cbn; [constructor|].
  apply sorted_snoc; [exact IH|]. apply Forall_rev. exact Ha.
Qed.

Lemma py_sorted_perm (l : list A) (reverse : bool) :
  Permutation (py_sorted l key reverse) l.
Proof.
  unfold py_sorted. destruct reverse; [|apply stable_sort_perm].
  rewrite <- Permutation_rev, stable_sort_perm, <- Permutation_rev. reflexivity.
Qed.

Lemma py_sorted_ascending (l : list A) :
  StronglySorted (fun a b => key a <= key b) (py_sorted l key false).
Proof. apply stable_sort_sorted. Qed.

Lemma py_sorted_descending (l : list A) :
  StronglySorted (fun a b => key b <= key a) (py_sorted l key true).
Proof. unfold py_sorted. apply (sorted_rev key_le). apply stable_sort_sorted. Qed.

Lemma py_sorted_stable (p : Z) (l : list A) (reverse : bool) :
  List.filter (fun a => key a =? p) (py_sorted l key reverse)
  = List.filter (fun a => key a =? p) l.
Proof.
  unfold py_sorted. destruct reverse; [|apply filter_stable_sort].
  rewrite List.filter_rev. fold (has_key p).
  rewrite filter_stable_sort, List.filter_rev. apply rev_involutive.
Qed.

End StableSort.

(** C6: for the orders ['asc'] and ['desc'],
    [sort_employees_by_percentage] returns a permutation of its input that
    is sorted by [attendance_percentage], ascending or descending as asked,
    and it is stable in both directions: the records of any one percentage
    come out in the order they came in. *)
Theorem sort_employees_stable (records : list Employee) (order : string) :
  order = "asc"%string \/ order = "desc"%string ->
  let out := sort_employees_by_percentage records order in
  Permutation out records /\
  (order = "asc"%string ->
   StronglySorted
     (fun a b => attendance_percentage a <= attendance_percentage b) out) /\
  (order = "desc"%string ->
   StronglySorted
     (fun a b => attendance_percentage b <= attendance_percentage a) out) /\
  (forall p,
     List.filter (fun r => attendance_percentage r =? p) out
     = List.filter (fun r => attendance_percentage r =? p) records).
Proof.
  intros Horder out. subst out. unfold sort_employees_by_percentage.
  split; [apply py_sorted_perm|].
  split; [|split].
  - intros ->. cbn. apply py_sorted_ascending.
  - intros ->. cbn. apply py_sorted_descending.
  - intros p. apply py_sorted_stable.
Qed.

Lemma sort_employees_stable_witness :
  ("desc"%string = "asc"%string \/ "desc"%string = "desc"%string) /\
  let records := [mkEmployee 1 "" "" 1 2 500 1; mkEmployee 2 "" "" 5 10 500 2;
                  mkEmployee 3 "" "" 3 10 300 3] in
  let out := sort_employees_by_percentage records "desc" in
  Permutation out records /\
  ("desc"%string = "asc"%string ->
   StronglySorted
     (fun a b => attendance_percentage a <= attendance_percentage b) out) /\
  ("desc"%string = "desc"%string ->
   StronglySorted
     (fun a b => attendance_percentage b <= attendance_percentage a) out) /\
  (forall p,
     List.filter (fun r => attendance_percentage r =? p) out
     = List.filter (fun r => attendance_percentage r =? p) records).
Proof.
  split; [right; reflexivity|]. intros records.
  apply (sort_employees_stable records "desc"). right; reflexivity.
Defined.

(** The stability example: two records at 50 percent and one at 30. *)
Example sort_ascending_ties :
  map id (sort_employees_by_percentage
            [mkEmployee 1 "" "" 1 2 500 1; mkEmployee 2 "" "" 5 10 500 2;
             mkEmployee 3 "" "" 3 10 300 3] "asc")
  = [3; 1; 2].
Proof. reflexivity. Qed.

Example sort_descending_ties :
  map id (sort_employees_by_percentage
            [mkEmployee 1 "" "" 1 2 500 1; mkEmployee 2 "" "" 5 10 500 2;
             mkEmployee 3 "" "" 3 10 300 3] "desc")
  = [1; 2; 3].
Proof. reflexivity. Qed.

(** ** Dynamic search *)

(** On ASCII strings the built-ins of every instance are computed by the
    reference functions. *)
Ltac text_rewrite :=
  repeat first
    [ rewrite strip_ascii by reflexivity
    | rewrite lower_ascii by reflexivity
    | rewrite int_ascii by reflexivity ].

Lemma lower_empty {T : Text} : lower EmptyString = EmptyString.
Proof. apply (lower_ascii EmptyString). reflexivity. Qed.

Lemma strip_empty {T : Text} : strip EmptyString = EmptyString.
Proof. apply (strip_ascii EmptyString). reflexivity. Qed.

Lemma starts_with_spec (q s : string) :
  starts_with q s = true <-> exists post : string, s = (q ++ post)%string.
Proof.
  split.
  - revert s. induction q as [|a q IH]; intros s Hs.
    + exists s. reflexivity.
    + destruct s as [|b s]; [discriminate|]. cbn in Hs.
      apply andb_prop in Hs. destruct Hs as [Hab Hs].
      apply Ascii.eqb_eq in Hab. subst b.
      destruct (IH s Hs) as [post ->]. exists post. reflexivity.
  - intros [post ->]. induction q as [|a q IH]; [reflexivity|].
    change (starts_with (String a q) (String a (q ++ post)%string) = true).
    cbn [starts_with]. rewrite Ascii.eqb_refl. exact IH.
Qed.

Lemma contains_unfold (q s : string) :
  contains q s
  = starts_with q s ||
    match s with EmptyString => false | String _ s' => contains q s' end.
Proof. destruct s; reflexivity. Qed.

Lemma contains_spec (q s : string) :
  contains q s = true <-> exists pre post : string, s = (pre ++ q ++ post)%string.
Proof.
  split.
  - induction s as [|c s IH]; rewrite contains_unfold; intros Hs;
      apply orb_prop in Hs; destruct Hs as [Hs|Hs]; try discriminate.
    + apply starts_with_spec in Hs. destruct Hs as [post Hpost].
      exists EmptyString, post. exact Hpost.
    + apply starts_with_spec in Hs. destruct Hs as [post Hpost].
      exists EmptyString, post. exact Hpost.
    + destruct (IH Hs) as [pre [post ->]]. exists (String c pre), post. reflexivity.
  - intros [pre [post ->]]. induction pre as [|c pre IH]; rewrite contains_unfold.
    + apply orb_true_intro. left. apply starts_with_spec. exists post. reflexivity.
    + apply orb_true_intro. right. exact IH.
Qed.

Lemma contains_empty (q s : string) : is_empty q = true -> contains q s = true.
Proof.
  destruct q; [|discriminate]. intros _. rewrite contains_unfold. reflexivity.
Qed.

Lemma optional_filter_spec {T : Text} (args : gmap string string)
    (key field : string) :
  let query := lower (strip (args_get args key)) in
  is_empty query || contains query (lower field) = true <->
  forall q, args !! key = Some q -> ci_substring (strip q) field.
Proof.
  cbv zeta. unfold args_get, ci_substring. split.
  - intros Hm q Hq. rewrite Hq in Hm. cbn in Hm. apply contains_spec.
    apply orb_prop in Hm. destruct Hm as [Hm|Hm]; [|exact Hm].
    apply contains_empty. exact Hm.
  - intros Hspec. destruct (args !! key) as [q|];
      [|cbv [default from_option]; rewrite strip_empty, lower_empty; reflexivity].
    cbn. apply orb_true_intro. right. apply contains_spec. apply Hspec. reflexivity.
Qed.

Lemma fold_left_append_filter {A : Type} (keep : A -> bool) (l acc : list A) :
  fold_left (fun results r => if keep r then results ++ [r] else results) l acc
  = acc ++ List.filter keep l.
Proof.
  revert acc. induction l as [|x l IH]; intros acc; cbn.
  - rewrite app_nil_r. reflexivity.
  - rewrite IH. destruct (keep x); [|reflexivity].
    rewrite <- app_assoc. reflexivity.
Qed.

(** C9, as the code has it: [api_dynamic_search] returns, in snapshot
    order, exactly the records for which every query that is given, once
    the whitespace around it is removed, occurs in the field it is about
    (the id written in decimal, the name, the department) when letter case
    is ignored, that is, once [lower()] is applied to both.  A query that is
    not given puts no condition, so the result is the conjunction of the
    filters that are given. *)
Theorem dynamic_search_filters {T : Text} (hash_table : HashTable.t)
    (args : gmap string string) :
  exists keep : Employee -> bool,
    api_dynamic_search hash_table args
    = List.filter keep (HashTable.flatten hash_table) /\
    forall r, keep r = true <->
      (forall q, args !! "id"%string = Some q ->
         ci_substring (strip q) (str_of_int (id r))) /\
      (forall q, args !! "name"%string = Some q -> ci_substring (strip q) (name r)) /\
      (forall q, args !! "department"%string = Some q ->
         ci_substring (strip q) (department r)).
Proof.
  exists (fun r =>
    (is_empty (lower (strip (args_get args "id")))
     || contains (lower (strip (args_get args "id"))) (lower (str_of_int (id r))))
    && (is_empty (lower (strip (args_get args "name")))
        || contains (lower (strip (args_get args "name"))) (lower (name r)))
    && (is_empty (lower (strip (args_get args "department")))
        || contains (lower (strip (args_get args "department")))
             (lower (department r)))).
  split.
  - unfold api_dynamic_search. cbv zeta. rewrite fold_left_append_filter. reflexivity.
  - intros r. cbv beta.
    rewrite !andb_true_iff.
    rewrite (optional_filter_spec args "id" (str_of_int (id r))).
    rewrite (optional_filter_spec args "name" (name r)).
    rewrite (optional_filter_spec args "department" (department r)).
    tauto.
Qed.

(** The dynamic-filter example, for every instance of the built-ins: the
    name query [go] finds the first record only, the department query [cse]
    finds both. *)
Example dynamic_search_name :
  forall T : Text,
    api_dynamic_search table_staff {[ "name"%string := "go"%string ]} = [go_lin].
Proof.
  intros T. unfold api_dynamic_search.
  replace (HashTable.flatten table_staff) with [go_lin; ann] by reflexivity.
  cbv zeta. cbn [fold_left]. text_rewrite. reflexivity.
Qed.

Example dynamic_search_department :
  forall T : Text,
    api_dynamic_search table_staff {[ "department"%string := "cse"%string ]}
    = [go_lin; ann].
Proof.
  intros T. unfold api_dynamic_search.
  replace (HashTable.flatten table_staff) with [go_lin; ann] by reflexivity.
  cbv zeta. cbn [fold_left]. text_rewrite. reflexivity.
Qed.

Example dynamic_search_conjunction :
  forall T : Text,
    api_dynamic_search table_staff
      (<[ "name"%string := "n"%string ]> {[ "id"%string := "2"%string ]})
    = [ann].
Proof.
  intros T. unfold api_dynamic_search.
  replace (HashTable.flatten table_staff) with [go_lin; ann] by reflexivity.
  cbv zeta. cbn [fold_left]. text_rewrite. reflexivity.
Qed.

(** The trimmed query of the counterexample, for every instance of the
    built-ins, Python's own included: the strings are ASCII. *)
Lemma trimmed_query_found {T : Text} :
  api_dynamic_search table_staff {[ "name"%string := " go"%string ]} = [go_lin] /\
  ~ ci_substring " go" (name go_lin).
Proof.
  split.
  - unfold api_dynamic_search.
    replace (HashTable.flatten table_staff) with [go_lin; ann] by reflexivity.
    cbv zeta. cbn [fold_left]. text_rewrite. reflexivity.
  - unfold ci_substring. text_rewrite. intros Hsub. apply contains_spec in Hsub.
    discriminate Hsub.
Qed.

(** C9, as stated, fails: the query is trimmed before it is matched.  The
    name query [" go"], with a leading blank, finds the record named
    [Go Lin], in whose name [" go"] does not occur. *)
Lemma dynamic_search_trims_query :
  api_dynamic_search table_staff {[ "name"%string := " go"%string ]} = [go_lin] /\
  ~ ci_substring " go" (name go_lin).
Proof. exact trimmed_query_found. Qed.

(** ** Record processing *)

Lemma insert_total (h : HashTable.t) (r : Employee) :
  wf h -> 0 < HashTable.size h ->
  exists h' pos, HashTable.insert h r = Ok (h', pos) /\
    wf h' /\ HashTable.size h' = HashTable.size h.
Proof.
  intros Hwf Hn.
  destruct (insert_cases h r Hwf Hn) as [[i [_ [_ [_ [Hres _]]]]]|[_ [Hres _]]];
    rewrite Hres; eexists _, _; (split; [reflexivity|]);
    (split; [apply store_wf; exact Hwf|reflexivity]).
Qed.

Lemma bind_ok {A B : Type} (m : res A) (k : A -> res B) (b : B) :
  bind m k = Ok b -> exists a, m = Ok a /\ k a = Ok b.
Proof. destruct m as [a|e]; [|discriminate]. intros Hk. exists a. split; trivial. Qed.

Lemma dict_get_int {T : Text} (rec : gmap string pyval) (key : string) (dflt : pyval) (n : Z) :
  py_int (dict_get rec key dflt) = Ok n ->
  (rec !! key = None /\ py_int dflt = Ok n) \/ int_field rec key n.
Proof.
  unfold dict_get, int_field. destruct (rec !! key) as [v|]; intros Hn.
  - right. exists v. split; [reflexivity|exact Hn].
  - left. split; [reflexivity|exact Hn].
Qed.

Lemma parse_row_fields {T : Text} (rec : gmap string pyval) (emp_id : Z) (nm dept : string)
    (att days : Z) :
  parse_row rec = Ok (emp_id, nm, dept, att, days) ->
  int_field rec "id" emp_id /\
  nm = strip (py_str (dict_get rec "name" (PStr ""))) /\
  dept = strip (py_str (dict_get rec "department" (PStr ""))) /\
  attendance_reads rec att /\
  total_days_reads rec days.
Proof.
  unfold parse_row. intros Hparse.
  apply bind_ok in Hparse. destruct Hparse as [i [Hid Hparse]].
  apply bind_ok in Hparse. destruct Hparse as [a [Hatt Hparse]].
  apply bind_ok in Hparse. destruct Hparse as [d [Hdays Hparse]].
  injection Hparse as <- <- <- <- <-.
  split; [|split; [reflexivity|split; [reflexivity|split]]].
  - apply dict_get_int in Hid. destruct Hid as [[_ Hnone]|Hid]; [discriminate|exact Hid].
  - apply dict_get_int in Hatt. destruct Hatt as [[Habs Hzero]|Hatt].
    + left. split; [exact Habs|]. injection Hzero as <-. reflexivity.
    + right. exact Hatt.
  - unfold total_days_reads. unfold dict_get at 1 in Hdays.
    destruct (rec !! "total_days"%string) as [v|] eqn:Hv.
    + destruct v; cbn in Hdays;
        try (right; right; apply dict_get_int in Hdays;
             destruct Hdays as [[Habs _]|Hdays]; [congruence|exact Hdays]).
      right. left. split; [reflexivity|]. injection Hdays as <-. reflexivity.
    + left. split; [reflexivity|]. cbn in Hdays. injection Hdays as <-. reflexivity.
Qed.

Lemma parse_row_readable {T : Text} (rec : gmap string pyval) :
  (exists fields, parse_row rec = Ok fields) <-> row_readable rec.
Proof.
  split.
  - intros [[[[[emp_id nm] dept] att] days] Hparse].
    destruct (parse_row_fields rec _ _ _ _ _ Hparse) as [Hid [_ [_ [Hatt Hdays]]]].
    split; [exists emp_id; exact Hid|]. split; [exists att|exists days]; assumption.
  - intros [[emp_id [vid [Hvid Hid]]] [[att Hatt] [days Hdays]]].
    assert (py_int (dict_get rec "id" PNone) = Ok emp_id) as Eid.
    { unfold dict_get. rewrite Hvid. exact Hid. }
    assert (py_int (dict_get rec "attendance" (PInt 0)) = Ok att) as Eatt.
    { unfold dict_get.
      destruct Hatt as [[-> ->]|[v [-> Hv]]]; [reflexivity|exact Hv]. }
    assert ((if is_not_none (dict_get rec "total_days" PNone)
             then py_int (dict_get rec "total_days" (PInt 0))
             else Ok 0) = Ok days) as Edays.
    { unfold dict_get.
      destruct Hdays as [[-> ->]|[[-> ->]|[v [-> Hv]]]]; [reflexivity|reflexivity|].
      destruct v; try exact Hv. discriminate. }
    unfold parse_row. rewrite Eid. cbn [bind]. rewrite Eatt. cbn [bind].
    rewrite Edays. cbn [bind]. eexists. reflexivity.
Qed.

Lemma kept_row_readable {T : Text} (rec : gmap string pyval) :
  kept_row rec = true <-> row_readable rec.
Proof.
  rewrite <- parse_row_readable. unfold kept_row.
  destruct (parse_row rec) as [fields|e].
  - split; [intros _; exists fields; reflexivity|reflexivity].
  - split; [discriminate|intros [fields Hf]; discriminate].
Qed.

Section ProcessLoop.

Context {T : Text}.
Variable percentage : Z -> Z -> res Z.

Lemma process_loop_spec (raw_list : list (gmap string pyval)) :
  forall (table : HashTable.t) (processed : list Employee),
    wf table -> 0 < HashTable.size table ->
    percentages_defined percentage raw_list ->
    exists table' out,
      process_loop percentage raw_list table processed = Ok (table', processed ++ out) /\
      Forall2 record_of_row (List.filter kept_row raw_list) out.
Proof.
  induction raw_list as [|rec rest IH]; intros table processed Hwf Hn Hdef.
  - exists table, []. split; [cbn; rewrite app_nil_r; reflexivity|constructor].
  - assert (percentages_defined percentage rest) as Hrest.
    { intros r i nm d a t Hin. apply (Hdef r i nm d a t). right. exact Hin. }
    cbn [process_loop List.filter]. unfold kept_row at 1.
    destruct (parse_row rec) as [[[[[emp_id nm] dept] att] days]|e] eqn:Hparse.
    + assert (exists p, (if days >? 0 then percentage att days else Ok 0) = Ok p)
        as [p ->].
      { destruct (Z.gtb_spec days 0) as [Hpos|Hle]; [|exists 0; reflexivity].
        apply (Hdef rec emp_id nm dept att days); [left; reflexivity|exact Hparse|lia]. }
      cbn [bind]. rewrite py_mod_ok by (unfold HASH_TABLE_SIZE; lia). cbn [bind].
      set (record := {| id := emp_id; name := nm; department := dept;
                        attendance := att; total_days := days;
                        attendance_percentage := p;
                        hash_index := emp_id mod HASH_TABLE_SIZE |}).
      destruct (insert_total table record Hwf Hn) as [h' [pos [-> [Hwf' Hsize]]]].
      cbn [bind fst].
      destruct (IH h' (processed ++ [record]) Hwf' ltac:(lia) Hrest)
        as [table' [out [Hloop Hout]]].
      exists table', (record :: out). split.
      * rewrite Hloop, <- app_assoc. reflexivity.
      * constructor; [|exact Hout].
        destruct (parse_row_fields rec _ _ _ _ _ Hparse)
          as [Hid [Hnm [Hdept [Hatt Hdays]]]].
        unfold record_of_row. subst record. cbn.
        repeat split; assumption.
    + apply IH; assumption.
Qed.

End ProcessLoop.

(** C7, as the code has it: [process_records] skips a row exactly when one
    of its three integer fields cannot be read: the id is absent or [int()]
    raises on it, or the attendance or the total of days is present and
    [int()] raises on it.  An absent attendance, and an absent or [None] total
    of days, count as 0.  The rows that are read are processed and returned
    in the order of the input, and a skipped row does not end the batch.
    (The statement leaves aside the batches in which a percentage overflows
    the float range.) *)
Theorem process_records_skips {T : Text} (percentage : Z -> Z -> res Z)
    (raw_list : list (gmap string pyval)) (st : Store) :
  wf (hash_table st) -> 0 < HashTable.size (hash_table st) ->
  percentages_defined percentage raw_list ->
  exists processed st',
    process_records percentage raw_list st = Ok (processed, st') /\
    (forall rec, kept_row rec = true <-> row_readable rec) /\
    Forall2 record_of_row (List.filter kept_row raw_list) processed.
Proof.
  intros Hwf Hn Hdef. unfold process_records.
  destruct (process_loop_spec percentage raw_list (hash_table st) [] Hwf Hn Hdef)
    as [table' [out [-> Hout]]].
  cbn [bind fst snd app]. eexists _, _. split; [reflexivity|].
  split; [exact kept_row_readable|exact Hout].
Qed.

Lemma exact_percentages_defined {T : Text} (raw_list : list (gmap string pyval)) :
  percentages_defined exact_percentage raw_list.
Proof. intros rec i nm d a t _ _ _. eexists. reflexivity. Qed.

Lemma process_records_skips_witness :
  wf (hash_table store_empty) /\ 0 < HashTable.size (hash_table store_empty) /\
  percentages_defined exact_percentage
    [row_id_only; row_bad_attendance; row_no_id; row_ann] /\
  exists processed st',
    process_records exact_percentage
      [row_id_only; row_bad_attendance; row_no_id; row_ann] store_empty
    = Ok (processed, st') /\
    (forall rec, kept_row rec = true <-> row_readable rec) /\
    Forall2 record_of_row
      (List.filter kept_row [row_id_only; row_bad_attendance; row_no_id; row_ann])
      processed.
Proof.
  split; [reflexivity|]. split; [reflexivity|].
  split; [apply exact_percentages_defined|].
  apply (process_records_skips exact_percentage
           [row_id_only; row_bad_attendance; row_no_id; row_ann] store_empty);
    [reflexivity|reflexivity|apply exact_percentages_defined].
Defined.

(** A batch of four rows: the second and the third are skipped. *)
Example process_records_batch :
  exists st',
    process_records exact_percentage
      [row_id_only; row_bad_attendance; row_no_id; row_ann] store_empty
    = Ok ([ {| id := 7; name := ""; department := ""; attendance := 0;
               total_days := 0; attendance_percentage := 0; hash_index := 7 |};
            {| id := 2; name := "Ann"; department := "CSE"; attendance := 4;
               total_days := 8; attendance_percentage := 500; hash_index := 2 |} ],
          st').
Proof. eexists. vm_compute. reflexivity. Qed.

Lemma parse_bad_attendance {T : Text} : parse_row row_bad_attendance = Raise ValueError.
Proof.
  unfold parse_row.
  replace (dict_get row_bad_attendance "id" PNone) with (PInt 1) by reflexivity.
  replace (dict_get row_bad_attendance "attendance" (PInt 0)) with (PStr "abc")
    by reflexivity.
  cbn [py_int bind]. text_rewrite. reflexivity.
Qed.

(** The row of the counterexample, for every instance of the built-ins,
    Python's own included: the strings are ASCII. *)
Lemma bad_attendance_skipped_any {T : Text} :
  id_parses row_bad_attendance /\
  exists st',
    process_records exact_percentage [row_bad_attendance] store_empty = Ok ([], st').
Proof.
  split.
  - exists 1, (PInt 1). split; reflexivity.
  - unfold process_records. cbn [process_loop]. rewrite parse_bad_attendance.
    cbn [bind]. eexists. reflexivity.
Qed.

(** C7, as stated, fails: the row [{"id": 1, "attendance": "abc"}] has an
    id that parses, and its attendance is present and malformed; it is
    skipped and no record with attendance 0 is made of it. *)
Lemma bad_attendance_row_skipped :
  id_parses row_bad_attendance /\
  exists st',
    process_records exact_percentage [row_bad_attendance] store_empty = Ok ([], st').
Proof. exact bad_attendance_skipped_any. Qed.

(** * Further properties of the hash table *)

(** ** Lookup finds what is stored *)

Lemma range_snoc (i : Z) : 0 <= i -> range (i + 1) = range i ++ [i].
Proof.
  intros Hi. unfold range.
  replace (Z.to_nat (i + 1)) with (S (Z.to_nat i)) by lia.
  rewrite seq_S, map_app. cbn. rewrite Z2Nat.id by exact Hi. reflexivity.
Qed.

Lemma range_length (m : Z) : length (range m) = Z.to_nat m.
Proof. unfold range. rewrite length_map, length_seq. reflexivity. Qed.

Lemma range_bounds (m i : Z) : In i (range m) -> 0 <= i < m.
Proof.
  unfold range. intros Hin. apply in_map_iff in Hin.
  destruct Hin as [j [<- Hj]]. apply in_seq in Hj. lia.
Qed.

Lemma range_NoDup (m : Z) : NoDup (range m).
Proof.
  unfold range. apply NoDup_ListNoDup.
  apply NoDup_map_NoDup_ForallPairs; [|apply seq_NoDup].
  intros a b _ _ Hab. lia.
Qed.

Lemma get_first_stop (h : HashTable.t) (k i : Z) :
  wf h -> 0 < HashTable.size h -> 0 <= i < HashTable.size h ->
  (forall j, 0 <= j < i -> busy_other h k (probe h k j)) ->
  stops_at h k (probe h k i) ->
  HashTable.get h k
  = Ok (slot_at h (probe h k i), map (trace_entry h k) (range (i + 1))).
Proof.
  intros Hwf Hn Hi Hbefore Hstop.
  destruct (get_cases h k Hwf Hn)
    as [[i' [Hi' [Hbefore' [Hstop' Hres]]]]|[Hall _]].
  - assert (i' = i) as ->; [|exact Hres].
    destruct (Z.lt_trichotomy i' i) as [Hlt|[Heq|Hgt]]; [|exact Heq|].
    + exfalso. apply (busy_not_stops h k (probe h k i')); [|exact Hstop'].
      apply Hbefore. lia.
    + exfalso. apply (busy_not_stops h k (probe h k i)); [|exact Hstop].
      apply Hbefore'. lia.
  - exfalso. apply (busy_not_stops h k (probe h k i)); [|exact Hstop].
    apply Hall. exact Hi.
Qed.

Lemma get_found_at (h : HashTable.t) (p : nat) (s : Employee) :
  wf h -> findable h -> HashTable.table h !! p = Some (Some s) ->
  exists i, 0 <= i < HashTable.size h /\ Z.to_nat (probe h (id s) i) = p /\
    HashTable.get h (id s)
    = Ok (Some s, map (trace_entry h (id s)) (range (i + 1))).
Proof.
  intros Hwf Hfind Hp.
  assert (0 < HashTable.size h) as Hn.
  { apply lookup_lt_Some in Hp. unfold wf in Hwf. lia. }
  destruct (Hfind p s Hp) as [i [Hi [Hpos Hbefore]]].
  assert (holds_at h (probe h (id s) i) s) as Hs.
  { unfold holds_at. rewrite Hpos. exact Hp. }
  exists i. split; [exact Hi|]. split; [exact Hpos|].
  rewrite <- (slot_at_holds h _ s Hs).
  apply get_first_stop; try assumption.
  right. exists s. split; [exact Hs|reflexivity].
Qed.

Lemma get_stored_iff (h : HashTable.t) (k : Z) :
  wf h -> findable h -> 0 < HashTable.size h ->
  exists result trace, HashTable.get h k = Ok (result, trace) /\
    forall s, result = Some s <-> (id s = k /\ stored h s).
Proof.
  intros Hwf Hfind Hn.
  destruct (get_cases h k Hwf Hn) as [[i [Hi [Hbefore [Hstop Hres]]]]|[Hall Hres]].
  - eexists _, _. split; [exact Hres|]. intros s.
    destruct Hstop as [He|[s0 [Hs0 Hid0]]].
    + rewrite (slot_at_empty _ _ He). split; [discriminate|].
      intros [Hid [p Hp]]. exfalso.
      destruct (Hfind p s Hp) as [i' [Hi' [Hpos Hb']]]. rewrite Hid in Hpos, Hb'.
      destruct (Z.lt_trichotomy i' i) as [Hlt|[Heq|Hgt]].
      * destruct (Hbefore i') as [s' [Hs' Hne]]; [lia|].
        unfold holds_at in Hs'. rewrite Hpos, Hp in Hs'. injection Hs' as <-.
        contradiction.
      * subst i'. unfold empty_at in He. rewrite Hpos in He. congruence.
      * destruct (Hb' i) as [s' [Hs' _]]; [lia|].
        unfold holds_at, empty_at in *. congruence.
    + rewrite (slot_at_holds _ _ _ Hs0). split.
      * intros Heq. injection Heq as <-. split; [exact Hid0|].
        exists (Z.to_nat (probe h k i)). exact Hs0.
      * intros [Hid [p Hp]]. f_equal.
        assert (Z.to_nat (probe h k i) = p) as Hpos.
        { apply (findable_unique h Hwf Hfind _ _ s0 s); [exact Hs0|exact Hp|congruence]. }
        unfold holds_at in Hs0. rewrite Hpos in Hs0. congruence.
  - eexists _, _. split; [exact Hres|]. intros s. split; [discriminate|].
    intros [Hid [p Hp]]. exfalso.
    destruct (slot_is_probe h k p (Some s) Hwf Hn Hp) as [i [Hi Hip]].
    destruct (Hall i Hi) as [s' [Hs' Hne]]. unfold holds_at in Hs'.
    rewrite Hip, Hp in Hs'. injection Hs' as <-. contradiction.
Qed.

(** X1: in a reachable table of capacity above zero, [get] returns a record
    exactly when a record of that id is stored, and it is that record;
    otherwise it returns [None].  No stored record is out of reach of
    lookup. *)
Theorem lookup_correct (h : HashTable.t) (emp_id : Z) :
  reachable h -> 0 < HashTable.size h ->
  exists result trace, HashTable.get h emp_id = Ok (result, trace) /\
    forall s, result = Some s <-> (id s = emp_id /\ stored h s).
Proof.
  intros Hreach Hn. destruct (reachable_invariant h Hreach) as [Hwf Hfind].
  apply get_stored_iff; assumption.
Qed.

Lemma table_2_7_12_reachable : reachable table_2_7_12.
Proof. apply runs_reachable; [apply reach_new|reflexivity]. Defined.

Lemma lookup_correct_witness :
  reachable table_2_7_12 /\ 0 < HashTable.size table_2_7_12 /\
  exists result trace, HashTable.get table_2_7_12 7 = Ok (result, trace) /\
    forall s, result = Some s <-> (id s = 7 /\ stored table_2_7_12 s).
Proof.
  split; [exact table_2_7_12_reachable|]. split; [reflexivity|].
  apply (lookup_correct table_2_7_12 7); [exact table_2_7_12_reachable|reflexivity].
Defined.

(** ** Insertion writes one slot *)

Lemma insert_result (h : HashTable.t) (r : Employee) :
  wf h -> 0 < HashTable.size h ->
  exists pos, HashTable.insert h r = Ok (store h pos r, pos) /\
    0 <= pos < HashTable.size h /\
    (if falls_back h r
     then pos = id r mod HashTable.size h /\
          forall j, 0 <= j < HashTable.size h ->
            busy_other h (id r) (probe h (id r) j)
     else stops_at h (id r) pos).
Proof.
  intros Hwf Hn.
  destruct (insert_cases h r Hwf Hn)
    as [[i [Hi [_ [Hstop [Hres Hfb]]]]]|[Hall [Hres Hfb]]]; rewrite Hfb.
  - exists (probe h (id r) i). split; [exact Hres|].
    split; [apply probe_range; exact Hn|exact Hstop].
  - exists (id r mod HashTable.size h). split; [exact Hres|].
    split; [apply Z.mod_pos_bound; exact Hn|]. split; [reflexivity|exact Hall].
Qed.

(** X2: one call of [insert] on a table of capacity above zero returns a
    position inside the table, leaves the record in the slot at that
    position, and changes neither any other slot nor the capacity. *)
Theorem insert_writes_one_slot (h : HashTable.t) (r : Employee) :
  wf h -> 0 < HashTable.size h ->
  exists h' pos, HashTable.insert h r = Ok (h', pos) /\
    0 <= pos < HashTable.size h /\
    HashTable.size h' = HashTable.size h /\
    length (HashTable.table h') = length (HashTable.table h) /\
    HashTable.table h' !! Z.to_nat pos = Some (Some r) /\
    forall q, q <> Z.to_nat pos -> HashTable.table h' !! q = HashTable.table h !! q.
Proof.
  intros Hwf Hn. destruct (insert_result h r Hwf Hn) as [pos [Hres [Hpos _]]].
  exists (store h pos r), pos. split; [exact Hres|]. split; [exact Hpos|].
  split; [reflexivity|]. split; [unfold store; cbn; apply length_insert|].
  split; [apply store_same; assumption|]. intros q Hq. apply store_other. exact Hq.
Qed.

Lemma insert_writes_one_slot_witness :
  wf table_2_7_12 /\ 0 < HashTable.size table_2_7_12 /\
  exists h' pos, HashTable.insert table_2_7_12 (emp 17) = Ok (h', pos) /\
    0 <= pos < HashTable.size table_2_7_12 /\
    HashTable.size h' = HashTable.size table_2_7_12 /\
    length (HashTable.table h') = length (HashTable.table table_2_7_12) /\
    HashTable.table h' !! Z.to_nat pos = Some (Some (emp 17)) /\
    forall q, q <> Z.to_nat pos ->
      HashTable.table h' !! q = HashTable.table table_2_7_12 !! q.
Proof.
  split; [reflexivity|]. split; [reflexivity|].
  apply (insert_writes_one_slot table_2_7_12 (emp 17)); reflexivity.
Defined.

(** ** Insertion followed by lookup *)

Lemma insert_reachable_invariant (h h' : HashTable.t) (r : Employee) (pos : Z) :
  reachable h -> HashTable.insert h r = Ok (h', pos) ->
  wf h /\ findable h /\ 0 < HashTable.size h /\
  wf h' /\ findable h' /\ h' = store h pos r /\ 0 <= pos < HashTable.size h.
Proof.
  intros Hreach Hins. destruct (reachable_invariant h Hreach) as [Hwf Hfind].
  pose proof (insert_ok_size h r _ Hwf Hins) as Hn.
  destruct (insert_preserves h h' r pos Hwf Hfind Hins) as [Hwf' [Hfind' _]].
  destruct (insert_result h r Hwf Hn) as [pos' [Hres [Hpos _]]].
  rewrite Hres in Hins. injection Hins as <- <-.
  repeat split; assumption || reflexivity || lia.
Qed.

(** X3: after [insert] has put a record into a reachable table, [get] with
    the id of the record returns that record, and the last entry of its
    trace is the position [insert] returned, with the record in it. *)
Theorem insert_then_get (h h' : HashTable.t) (r : Employee) (pos : Z) :
  reachable h -> HashTable.insert h r = Ok (h', pos) ->
  exists trace, HashTable.get h' (id r) = Ok (Some r, trace) /\
    last trace = Some (pos, Some r).
Proof.
  intros Hreach Hins.
  destruct (insert_reachable_invariant h h' r pos Hreach Hins)
    as [Hwf [_ [Hn [Hwf' [Hfind' [-> Hpos]]]]]].
  pose proof (store_same h pos r Hwf Hpos) as Hr.
  destruct (get_found_at _ _ r Hwf' Hfind' Hr) as [i [Hi [Hip Hget]]].
  eexists. split; [exact Hget|].
  rewrite range_snoc, map_app by lia. cbn [map]. rewrite last_snoc.
  unfold trace_entry.
  assert (probe (store h pos r) (id r) i = pos) as ->.
  { pose proof (probe_range (store h pos r) (id r) i Hn) as HP. cbn in HP. lia. }
  unfold slot_at. rewrite Hr. reflexivity.
Qed.

Lemma insert_then_get_witness :
  reachable table_full /\
  HashTable.insert table_full (emp 2) = Ok (after table_full [emp 2], 0) /\
  exists trace, HashTable.get (after table_full [emp 2]) (id (emp 2))
                = Ok (Some (emp 2), trace) /\
    last trace = Some (0, Some (emp 2)).
Proof.
  assert (reachable table_full) as Hreach.
  { apply runs_reachable; [apply reach_new|reflexivity]. }
  split; [exact Hreach|]. split; [reflexivity|].
  apply (insert_then_get table_full (after table_full [emp 2]) (emp 2) 0);
    [exact Hreach|reflexivity].
Defined.

(** ** When the fallback fires *)

Lemma flatten_full_some (l : list (option Employee)) :
  length (omap (fun slot => slot) l) = length l ->
  forall q x, l !! q = Some x -> x <> None.
Proof.
  induction l as [|y l IH]; intros Hlen q x Hq; [discriminate|].
  destruct y as [s|].
  - cbn in Hlen. destruct q as [|q]; [cbn in Hq; congruence|].
    apply (IH ltac:(lia) q x). exact Hq.
  - exfalso. cbn in Hlen. pose proof (flatten_length_le l). lia.
Qed.

(** X4: on a table of capacity above zero, [insert] takes the fallback
    that overwrites the slot of the hash exactly when every slot is occupied
    and no stored record has the id of the new one. *)
Theorem falls_back_iff_full (h : HashTable.t) (r : Employee) :
  wf h -> 0 < HashTable.size h ->
  (falls_back h r = true <->
   occupied h = length (HashTable.table h) /\
   forall s, stored h s -> id s <> id r).
Proof.
  intros Hwf Hn.
  destruct (insert_cases h r Hwf Hn)
    as [[i [Hi [_ [Hstop [_ Hfb]]]]]|[Hall [_ Hfb]]]; rewrite Hfb.
  - split; [discriminate|]. intros [Hfull Habsent]. exfalso.
    destruct Hstop as [He|[s [Hs Hid]]].
    + apply (flatten_full_some _ Hfull _ _ He). reflexivity.
    + apply (Habsent s); [|exact Hid]. exists (Z.to_nat (probe h (id r) i)). exact Hs.
  - split; [intros _|reflexivity]. split; [apply (all_busy_full h (id r)); assumption|].
    intros s [p Hp].
    destruct (slot_is_probe h (id r) p (Some s) Hwf Hn Hp) as [i [Hi Hip]].
    destruct (Hall i Hi) as [s' [Hs' Hne]]. unfold holds_at in Hs'.
    rewrite Hip, Hp in Hs'. injection Hs' as <-. exact Hne.
Qed.

Lemma falls_back_iff_full_witness :
  wf table_full /\ 0 < HashTable.size table_full /\
  (falls_back table_full (emp 2) = true <->
   occupied table_full = length (HashTable.table table_full) /\
   forall s, stored table_full s -> id s <> id (emp 2)).
Proof.
  split; [reflexivity|]. split; [reflexivity|].
  apply (falls_back_iff_full table_full (emp 2)); reflexivity.
Defined.

(** X5: when [insert] on a reachable table does not take the fallback,
    every record stored before under another id stays in its slot and is
    still returned by [get]. *)
Theorem insert_keeps_others (h h' : HashTable.t) (r s : Employee) (pos : Z) (p : nat) :
  reachable h -> HashTable.insert h r = Ok (h', pos) -> falls_back h r = false ->
  HashTable.table h !! p = Some (Some s) -> id s <> id r ->
  HashTable.table h' !! p = Some (Some s) /\
  exists trace, HashTable.get h' (id s) = Ok (Some s, trace).
Proof.
  intros Hreach Hins Hfb Hp Hne.
  destruct (insert_reachable_invariant h h' r pos Hreach Hins)
    as [Hwf [_ [Hn [Hwf' [Hfind' [-> Hpos]]]]]].
  destruct (insert_result h r Hwf Hn) as [pos' [Hres [_ Hcase]]].
  rewrite Hres in Hins. injection Hins as Hstore Heq. subst pos'.
  rewrite Hfb in Hcase.
  assert (HashTable.table (store h pos r) !! p = Some (Some s)) as Hp'.
  { rewrite store_other; [exact Hp|]. intros ->.
    destruct Hcase as [He|[s' [Hs' Hid]]]; unfold empty_at, holds_at in *; congruence. }
  split; [exact Hp'|].
  destruct (get_found_at _ _ s Hwf' Hfind' Hp') as [i [_ [_ Hget]]].
  eexists. exact Hget.
Qed.

Lemma insert_keeps_others_witness :
  reachable table_2_7_12 /\
  HashTable.insert table_2_7_12 (emp 17) = Ok (after table_2_7_12 [emp 17], 0) /\
  falls_back table_2_7_12 (emp 17) = false /\
  HashTable.table table_2_7_12 !! 4%nat = Some (Some (emp 12)) /\
  id (emp 12) <> id (emp 17) /\
  HashTable.table (after table_2_7_12 [emp 17]) !! 4%nat = Some (Some (emp 12)) /\
  exists trace,
    HashTable.get (after table_2_7_12 [emp 17]) (id (emp 12)) = Ok (Some (emp 12), trace).
Proof.
  split; [exact table_2_7_12_reachable|]. split; [reflexivity|].
  split; [reflexivity|]. split; [reflexivity|]. split; [discriminate|].
  apply (insert_keeps_others table_2_7_12 (after table_2_7_12 [emp 17])
           (emp 17) (emp 12) 0 4);
    [exact table_2_7_12_reachable|reflexivity|reflexivity|reflexivity|discriminate].
Defined.

(** X6: when [insert] on a reachable table takes the fallback, it returns
    the position of the hash, the record that was there had another id and
    is lost: no slot holds that id afterwards and [get] returns [None] for
    it. *)
Theorem fallback_discards (h h' : HashTable.t) (r : Employee) (pos : Z) :
  reachable h -> HashTable.insert h r = Ok (h', pos) -> falls_back h r = true ->
  pos = id r mod HashTable.size h /\
  exists old, HashTable.table h !! Z.to_nat pos = Some (Some old) /\
    id old <> id r /\
    (forall s, stored h' s -> id s <> id old) /\
    exists trace, HashTable.get h' (id old) = Ok (None, trace).
Proof.
  intros Hreach Hins Hfb.
  destruct (insert_reachable_invariant h h' r pos Hreach Hins)
    as [Hwf [Hfind [Hn [Hwf' [Hfind' [-> Hpos]]]]]].
  destruct (insert_result h r Hwf Hn) as [pos' [Hres [_ Hcase]]].
  rewrite Hres in Hins. injection Hins as Hstore Heq. subst pos'.
  rewrite Hfb in Hcase. destruct Hcase as [Hhash Hall].
  split; [exact Hhash|].
  destruct (Hall 0) as [old [Hold Hne]]; [lia|].
  rewrite probe_zero, <- Hhash in Hold by exact Hn. unfold holds_at in Hold.
  exists old. split; [exact Hold|]. split; [exact Hne|].
  assert (forall s, stored (store h pos r) s -> id s <> id old) as Hgone.
  { intros s [q Hq] Hid.
    destruct (Nat.eq_dec q (Z.to_nat pos)) as [->|Hq'].
    - rewrite store_same in Hq by assumption. injection Hq as <-. congruence.
    - rewrite store_other in Hq by exact Hq'. apply Hq'.
      apply (findable_unique h Hwf Hfind q (Z.to_nat pos) s old); assumption. }
  split; [exact Hgone|].
  destruct (get_stored_iff (store h pos r) (id old) Hwf' Hfind' Hn)
    as [result [trace [Hget Hiff]]].
  exists trace. rewrite Hget. destruct result as [s|]; [exfalso|reflexivity].
  destruct (Hiff s) as [Hs _]. destruct (Hs eq_refl) as [Hid Hst].
  exact (Hgone s Hst Hid).
Qed.

Lemma fallback_discards_witness :
  reachable table_full /\
  HashTable.insert table_full (emp 2) = Ok (after table_full [emp 2], 0) /\
  falls_back table_full (emp 2) = true /\
  0 = id (emp 2) mod HashTable.size table_full /\
  exists old, HashTable.table table_full !! Z.to_nat 0 = Some (Some old) /\
    id old <> id (emp 2) /\
    (forall s, stored (after table_full [emp 2]) s -> id s <> id old) /\
    exists trace, HashTable.get (after table_full [emp 2]) (id old) = Ok (None, trace).
Proof.
  assert (reachable table_full) as Hreach.
  { apply runs_reachable; [apply reach_new|reflexivity]. }
  split; [exact Hreach|]. split; [reflexivity|]. split; [reflexivity|].
  apply (fallback_discards table_full (after table_full [emp 2]) (emp 2) 0);
    [exact Hreach|reflexivity|reflexivity].
Defined.

(** ** The trace of a lookup *)

Lemma probes_NoDup (h : HashTable.t) (k m : Z) :
  0 < HashTable.size h -> m <= HashTable.size h ->
  NoDup (map (probe h k) (range m)).
Proof.
  intros Hn Hm. apply NoDup_ListNoDup.
  apply NoDup_map_NoDup_ForallPairs; [|apply NoDup_ListNoDup, range_NoDup].
  intros a b Ha Hb Hab. apply range_bounds in Ha, Hb.
  apply (probe_inj h k a b Hn); [lia|lia|exact Hab].
Qed.

Lemma trace_entries_shape (h : HashTable.t) (k m : Z) :
  0 < HashTable.size h -> 0 <= m <= HashTable.size h ->
  let trace := map (trace_entry h k) (range m) in
  length trace = Z.to_nat m /\
  NoDup (map fst trace) /\
  Forall (fun e => 0 <= fst e < HashTable.size h /\ snd e = slot_at h (fst e)) trace.
Proof.
  intros Hn Hm trace. subst trace. split; [rewrite length_map; apply range_length|].
  split.
  - rewrite map_map. cbn. apply probes_NoDup; lia.
  - apply List.Forall_forall. intros e He. apply in_map_iff in He.
    destruct He as [i [<- _]]. cbn. split; [apply probe_range; exact Hn|reflexivity].
Qed.

(** X7: in a table of capacity above zero, [get] returns, and its trace has
    at least one entry and at most as many as the table has slots; it starts
    at the slot of the hash, never lists a slot twice, and every entry pairs
    a position inside the table with what the table holds there. *)
Theorem lookup_trace_bounds (h : HashTable.t) (emp_id : Z) :
  wf h -> 0 < HashTable.size h ->
  exists result trace, HashTable.get h emp_id = Ok (result, trace) /\
    (1 <= length trace <= length (HashTable.table h))%nat /\
    head (map fst trace) = Some (emp_id mod HashTable.size h) /\
    NoDup (map fst trace) /\
    Forall (fun e => 0 <= fst e < HashTable.size h /\ snd e = slot_at h (fst e)) trace.
Proof.
  intros Hwf Hn.
  assert (forall m, 1 <= m <= HashTable.size h ->
            head (map fst (map (trace_entry h emp_id) (range m)))
            = Some (emp_id mod HashTable.size h)) as Hhead.
  { intros m Hm. unfold range.
    replace (Z.to_nat m) with (S (Z.to_nat (m - 1))) by lia.
    cbn. rewrite probe_zero by exact Hn. reflexivity. }
  destruct (get_cases h emp_id Hwf Hn) as [[i [Hi [_ [_ Hres]]]]|[_ Hres]];
    rewrite Hres; eexists _, _; (split; [reflexivity|]).
  - destruct (trace_entries_shape h emp_id (i + 1) Hn ltac:(lia)) as [Hlen [Hnd Hall]].
    split; [rewrite Hlen; unfold wf in Hwf; lia|].
    split; [apply Hhead; lia|]. split; assumption.
  - destruct (trace_entries_shape h emp_id (HashTable.size h) Hn ltac:(lia))
      as [Hlen [Hnd Hall]].
    split; [rewrite Hlen; unfold wf in Hwf; lia|].
    split; [apply Hhead; lia|]. split; assumption.
Qed.

Lemma lookup_trace_bounds_witness :
  wf table_2_7_12 /\ 0 < HashTable.size table_2_7_12 /\
  exists result trace, HashTable.get table_2_7_12 17 = Ok (result, trace) /\
    (1 <= length trace <= length (HashTable.table table_2_7_12))%nat /\
    head (map fst trace) = Some (17 mod HashTable.size table_2_7_12) /\
    NoDup (map fst trace) /\
    Forall (fun e => 0 <= fst e < HashTable.size table_2_7_12 /\
                     snd e = slot_at table_2_7_12 (fst e)) trace.
Proof.
  split; [reflexivity|]. split; [reflexivity|].
  apply (lookup_trace_bounds table_2_7_12 17); reflexivity.
Defined.

(** ** Tables without slots *)

(** X8: a table made with the capacity 0 raises [ZeroDivisionError] on
    every [insert] and every [get].  A table made with a negative capacity
    has no slots either: [insert] raises [IndexError] and [get] returns
    [None] with an empty trace. *)
Theorem no_capacity (n : Z) (r : Employee) (emp_id : Z) :
  (n = 0 ->
   HashTable.insert (HashTable.new n) r = Raise ZeroDivisionError /\
   HashTable.get (HashTable.new n) emp_id = Raise ZeroDivisionError) /\
  (n < 0 ->
   HashTable.insert (HashTable.new n) r = Raise IndexError /\
   HashTable.get (HashTable.new n) emp_id = Ok (None, [])).
Proof.
  split.
  - intros ->. split; reflexivity.
  - intros Hneg. unfold HashTable.insert, HashTable.get, HashTable.hash_function.
    cbn [HashTable.size HashTable.table HashTable.new].
    rewrite !py_mod_ok by lia. cbn [bind]. unfold range.
    replace (Z.to_nat n) with 0%nat by lia.
    cbn [seq map replicate HashTable.insert_loop HashTable.get_loop bind].
    split; [|reflexivity].
    unfold py_setitem, py_index. cbn [length]. change (Z.of_nat 0) with 0.
    rewrite Z.add_0_r.
    destruct (id r mod n <? 0); destruct (Z.leb_spec 0 (id r mod n));
      destruct (Z.ltb_spec (id r mod n) 0); cbn; try reflexivity; lia.
Qed.

(** ** The snapshot *)

Lemma flatten_stored (h : HashTable.t) (s : Employee) :
  In s (HashTable.flatten h) <-> stored h s.
Proof.
  unfold HashTable.flatten, stored. rewrite <- list_elem_of_In, list_elem_of_omap.
  split.
  - intros [x [Hx Hs]]. subst x. apply list_elem_of_lookup in Hx. exact Hx.
  - intros [p Hp]. exists (Some s). split; [|reflexivity].
    apply list_elem_of_lookup. exists p. exact Hp.
Qed.

(** X9: the snapshot of a reachable table lists exactly the records that
    the slots hold, no two of them with the same id, and never more records
    than the table has slots. *)
Theorem flatten_distinct_ids (h : HashTable.t) :
  reachable h ->
  NoDup (map id (HashTable.flatten h)) /\
  (length (HashTable.flatten h) <= length (HashTable.table h))%nat /\
  forall s, In s (HashTable.flatten h) <-> stored h s.
Proof.
  intros Hreach. destruct (reachable_invariant h Hreach) as [Hwf Hfind].
  split; [apply unique_ids_NoDup; apply findable_unique; assumption|].
  split; [apply flatten_length_le|]. apply flatten_stored.
Qed.

Lemma flatten_distinct_ids_witness :
  reachable table_2_7_12 /\
  NoDup (map id (HashTable.flatten table_2_7_12)) /\
  (length (HashTable.flatten table_2_7_12)
   <= length (HashTable.table table_2_7_12))%nat /\
  forall s, In s (HashTable.flatten table_2_7_12) <-> stored table_2_7_12 s.
Proof.
  split; [exact table_2_7_12_reachable|].
  apply (flatten_distinct_ids table_2_7_12). exact table_2_7_12_reachable.
Defined.

(** ** The slot view *)

Lemma as_list_from_lookup (slots : list (option Employee)) (i q : nat) :
  HashTable.as_list_from (Z.of_nat i) slots !! q = summary_of (i + q) <$> slots !! q.
Proof.
  revert i q. induction slots as [|slot slots IH]; intros i q; [reflexivity|].
  destruct q as [|q].
  - cbn. rewrite Nat.add_0_r. destruct slot; reflexivity.
  - cbn [HashTable.as_list_from]. cbn [lookup list_lookup].
    replace (Z.of_nat i + 1) with (Z.of_nat (S i)) by lia.
    replace (i + S q)%nat with (S i + q)%nat by lia. exact (IH (S i) q).
Qed.

Lemma as_list_from_length (slots : list (option Employee)) (i : Z) :
  length (HashTable.as_list_from i slots) = length slots.
Proof.
  revert i. induction slots as [|slot slots IH]; intros i; [reflexivity|].
  cbn. rewrite IH. reflexivity.
Qed.

Lemma as_list_from_flatten (slots : list (option Employee)) (i : Z) :
  map (fun e => (HashTable.summary_id e, HashTable.summary_name e,
                 HashTable.summary_percentage e))
    (omap (fun e => e) (HashTable.as_list_from i slots))
  = map (fun s => (id s, name s, attendance_percentage s))
      (omap (fun slot => slot) slots).
Proof.
  revert i. induction slots as [|slot slots IH]; intros i; [reflexivity|].
  destruct slot as [s|]; cbn; rewrite IH; reflexivity.
Qed.

(** X10: [as_list] has one entry per slot; the entry of an empty slot is
    [None], the entry of an occupied slot carries the index of that slot
    with the id, name and percentage of its record.  Without the empty
    entries it lists the records of the snapshot, in the same order. *)
Theorem as_list_slots (h : HashTable.t) :
  length (HashTable.as_list h) = length (HashTable.table h) /\
  (forall q : nat,
     HashTable.as_list h !! q = summary_of q <$> HashTable.table h !! q) /\
  map (fun e => (HashTable.summary_id e, HashTable.summary_name e,
                 HashTable.summary_percentage e))
    (omap (fun e => e) (HashTable.as_list h))
  = map (fun s => (id s, name s, attendance_percentage s)) (HashTable.flatten h).
Proof.
  unfold HashTable.as_list, HashTable.flatten.
  split; [apply as_list_from_length|]. split; [|apply as_list_from_flatten].
  intros q. apply (as_list_from_lookup (HashTable.table h) 0 q).
Qed.

Example as_list_2_7_12 :
  HashTable.as_list table_2_7_12
  = [None; None; Some (HashTable.mkSummary 2 2 "" 0);
     Some (HashTable.mkSummary 3 7 "" 0); Some (HashTable.mkSummary 4 12 "" 0)].
Proof. reflexivity. Qed.

(** * Further properties of rebuilding *)

Lemma stored_store (h : HashTable.t) (pos : Z) (r s : Employee) :
  wf h -> 0 <= pos < HashTable.size h ->
  stored (store h pos r) s ->
  s = r \/ exists q, q <> Z.to_nat pos /\ HashTable.table h !! q = Some (Some s).
Proof.
  intros Hwf Hpos [q Hq].
  destruct (Nat.eq_dec q (Z.to_nat pos)) as [->|Hne].
  - rewrite store_same in Hq by assumption. injection Hq as <-. left. reflexivity.
  - rewrite store_other in Hq by exact Hne. right. exists q. split; assumption.
Qed.

Lemma insert_all_reachable (rs : list Employee) (h : HashTable.t) :
  reachable h -> 0 < HashTable.size h ->
  exists h', insert_all h rs = Ok h' /\ reachable h' /\
    HashTable.size h' = HashTable.size h /\
    forall s, stored h' s -> stored h s \/ In s rs.
Proof.
  revert h. induction rs as [|r rs IH]; intros h Hreach Hn.
  - exists h. split; [reflexivity|]. split; [exact Hreach|].
    split; [reflexivity|]. intros s Hs. left. exact Hs.
  - destruct (reachable_invariant h Hreach) as [Hwf _].
    destruct (insert_result h r Hwf Hn) as [pos [Hres [Hpos _]]].
    cbn [insert_all]. rewrite Hres. cbn [bind fst].
    destruct (IH (store h pos r)) as [h' [Hall [Hreach' [Hsize Hfrom]]]].
    { exact (reach_insert h _ r pos Hreach Hres). }
    { exact Hn. }
    exists h'. split; [exact Hall|]. split; [exact Hreach'|].
    split; [rewrite Hsize; reflexivity|].
    intros s Hs. destruct (Hfrom s Hs) as [Hst|Hin]; [|right; right; exact Hin].
    destruct (stored_store h pos r s Hwf Hpos Hst) as [->|[q [_ Hq]]].
    + right. left. reflexivity.
    + left. exists q. exact Hq.
Qed.

(** X11: on a table of capacity above zero,
    [rebuild_hashtable_from_list] returns for every list of records, whatever
    the table held before; the rebuilt table has the same capacity, is one
    that calls of [insert] reach from the empty table, and every record of
    its snapshot is a record of the list. *)
Theorem rebuild_total (h : HashTable.t) (records : list Employee) :
  0 < HashTable.size h ->
  exists h', rebuild_hashtable_from_list h records = Ok h' /\
    reachable h' /\
    HashTable.size h' = HashTable.size h /\
    forall s, In s (HashTable.flatten h') -> In s records.
Proof.
  intros Hn. unfold rebuild_hashtable_from_list.
  change (HashTable.clear h) with (HashTable.new (HashTable.size h)).
  destruct (insert_all_reachable records (HashTable.new (HashTable.size h)))
    as [h' [Hall [Hreach [Hsize Hfrom]]]].
  { apply reach_new. }
  { exact Hn. }
  exists h'. split; [exact Hall|]. split; [exact Hreach|]. split; [exact Hsize|].
  intros s Hs. apply flatten_stored in Hs.
  destruct (Hfrom s Hs) as [[p Hp]|Hin]; [|exact Hin].
  exfalso. exact (new_no_record _ p s Hp).
Qed.

Lemma rebuild_total_witness :
  0 < HashTable.size table_full /\
  exists h', rebuild_hashtable_from_list table_full [emp 4; emp 6; emp 4; emp 9] = Ok h' /\
    reachable h' /\
    HashTable.size h' = HashTable.size table_full /\
    forall s, In s (HashTable.flatten h') -> In s [emp 4; emp 6; emp 4; emp 9].
Proof.
  split; [reflexivity|].
  apply (rebuild_total table_full [emp 4; emp 6; emp 4; emp 9]). reflexivity.
Defined.

(** ** The last record of an id wins *)

Lemma find_app {A : Type} (f : A -> bool) (l1 l2 : list A) :
  List.find f (l1 ++ l2)
  = match List.find f l1 with Some x => Some x | None => List.find f l2 end.
Proof.
  induction l1 as [|x l1 IH]; [reflexivity|]. cbn. destruct (f x); [reflexivity|exact IH].
Qed.

Lemma last_with_id_cons (r : Employee) (rs : list Employee) (k : Z) :
  last_with_id (r :: rs) k
  = match last_with_id rs k with
    | Some x => Some x
    | None => if id r =? k then Some r else None
    end.
Proof. unfold last_with_id. cbn [rev]. rewrite find_app. reflexivity. Qed.

Lemma not_full_no_fallback (h : HashTable.t) (r : Employee) :
  wf h -> 0 < HashTable.size h ->
  (occupied h < length (HashTable.table h))%nat -> falls_back h r = false.
Proof.
  intros Hwf Hn Hroom.
  destruct (insert_cases h r Hwf Hn) as [[i [_ [_ [_ [_ Hfb]]]]]|[Hall _]];
    [exact Hfb|].
  pose proof (all_busy_full h (id r) Hwf Hn Hall). lia.
Qed.

Lemma insert_direct_stored (h : HashTable.t) (r : Employee) :
  reachable h -> 0 < HashTable.size h -> falls_back h r = false ->
  exists pos, HashTable.insert h r = Ok (store h pos r, pos) /\
    (occupied (store h pos r) <= S (occupied h))%nat /\
    forall s, stored (store h pos r) s <-> s = r \/ (stored h s /\ id s <> id r).
Proof.
  intros Hreach Hn Hfb. destruct (reachable_invariant h Hreach) as [Hwf _].
  destruct (insert_result h r Hwf Hn) as [pos [Hres [Hpos Hcase]]].
  rewrite Hfb in Hcase. exists pos. split; [exact Hres|].
  pose proof (reach_insert h _ r pos Hreach Hres) as Hreach'.
  destruct (reachable_invariant _ Hreach') as [Hwf' Hfind'].
  split.
  - destruct Hcase as [He|[s [Hs _]]].
    + rewrite (occupied_store_empty h pos r He). lia.
    + rewrite (occupied_store_held h pos r s Hs). lia.
  - intros s. split.
    + intros Hst. destruct (stored_store h pos r s Hwf Hpos Hst) as [->|[q [Hq Hs]]];
        [left; reflexivity|].
      right. split; [exists q; exact Hs|]. intros Hid. apply Hq.
      apply (findable_unique _ Hwf' Hfind' q (Z.to_nat pos) s r);
        [rewrite store_other by exact Hq; exact Hs|apply store_same; assumption|exact Hid].
    + intros [->|[[q Hq] Hne]].
      * exists (Z.to_nat pos). apply store_same; assumption.
      * exists q. rewrite store_other; [exact Hq|]. intros ->.
        destruct Hcase as [He|[s' [Hs' Hid]]]; unfold empty_at, holds_at in *; congruence.
Qed.

Lemma insert_all_last_wins (rs : list Employee) (h : HashTable.t) :
  reachable h ->
  (occupied h + length rs <= length (HashTable.table h))%nat ->
  exists h', insert_all h rs = Ok h' /\
    forall s, stored h' s <->
      last_with_id rs (id s) = Some s \/
      (last_with_id rs (id s) = None /\ stored h s).
Proof.
  revert h. induction rs as [|r rs IH]; intros h Hreach Hroom.
  - exists h. split; [reflexivity|]. intros s. cbn. split.
    + intros Hs. right. split; [reflexivity|exact Hs].
    + intros [Hs|[_ Hs]]; [discriminate|exact Hs].
  - destruct (reachable_invariant h Hreach) as [Hwf _]. cbn [length] in Hroom.
    assert (0 < HashTable.size h) as Hn by (unfold wf in Hwf; lia).
    pose proof (not_full_no_fallback h r Hwf Hn ltac:(lia)) as Hfb.
    destruct (insert_direct_stored h r Hreach Hn Hfb) as [pos [Hres [Hocc Hst]]].
    cbn [insert_all]. rewrite Hres. cbn [bind fst].
    destruct (IH (store h pos r)) as [h' [Hall Hlast]].
    { exact (reach_insert h _ r pos Hreach Hres). }
    { assert (length (HashTable.table (store h pos r)) = length (HashTable.table h))
        as -> by (unfold store; cbn; apply length_insert).
      lia. }
    exists h'. split; [exact Hall|]. intros s.
    rewrite (Hlast s), last_with_id_cons, (Hst s).
    destruct (last_with_id rs (id s)) as [x|].
    + split; (intros [Hx|[Hx _]]; [left; exact Hx|discriminate]).
    + destruct (Z.eqb_spec (id r) (id s)) as [Heq|Hne].
      * split.
        -- intros [Hx|[_ [->|[_ Hne]]]]; [discriminate|left; reflexivity|congruence].
        -- intros [Hx|[Hx _]]; [|discriminate]. injection Hx as <-.
           right. split; [reflexivity|left; reflexivity].
      * split.
        -- intros [Hx|[_ [->|[Hs _]]]]; [discriminate|contradiction|].
           right. split; [reflexivity|exact Hs].
        -- intros [Hx|[_ Hs]]; [discriminate|].
           right. split; [reflexivity|]. right. split; [exact Hs|congruence].
Qed.

(** X12: rebuilding from a list that has no more records than the table
    has slots stores, for every id of the list, the last record of the list
    with that id, and nothing else: a record is in the snapshot of the
    rebuilt table exactly when it is the last one of its id in the list. *)
Theorem rebuild_last_wins (h : HashTable.t) (records : list Employee) :
  (length records <= Z.to_nat (HashTable.size h))%nat ->
  exists h', rebuild_hashtable_from_list h records = Ok h' /\
    forall s, In s (HashTable.flatten h') <-> last_with_id records (id s) = Some s.
Proof.
  intros Hlen. unfold rebuild_hashtable_from_list.
  change (HashTable.clear h) with (HashTable.new (HashTable.size h)).
  destruct (insert_all_last_wins records (HashTable.new (HashTable.size h)))
    as [h' [Hall Hlast]].
  { apply reach_new. }
  { unfold occupied. change (HashTable.new (HashTable.size h)) with (HashTable.clear h).
    rewrite clear_flatten. unfold HashTable.clear. cbn. rewrite length_replicate. exact Hlen. }
  exists h'. split; [exact Hall|]. intros s.
  rewrite flatten_stored, (Hlast s). split; [|intros Hs; left; exact Hs].
  intros [Hs|[_ [p Hp]]]; [exact Hs|]. exfalso. exact (new_no_record _ p s Hp).
Qed.

Lemma rebuild_last_wins_witness :
  (length [emp 2; go_lin; mkEmployee 2 "Bo" "EEE" 1 4 250 2]
   <= Z.to_nat (HashTable.size table_2_7_12))%nat /\
  exists h',
    rebuild_hashtable_from_list table_2_7_12
      [emp 2; go_lin; mkEmployee 2 "Bo" "EEE" 1 4 250 2] = Ok h' /\
    forall s, In s (HashTable.flatten h') <->
      last_with_id [emp 2; go_lin; mkEmployee 2 "Bo" "EEE" 1 4 250 2] (id s) = Some s.
Proof.
  split; [vm_compute; lia|].
  apply (rebuild_last_wins table_2_7_12
           [emp 2; go_lin; mkEmployee 2 "Bo" "EEE" 1 4 250 2]).
  vm_compute. lia.
Defined.

Example rebuild_duplicate_id :
  option_map HashTable.flatten
    (match rebuild_hashtable_from_list table_2_7_12
             [emp 2; go_lin; mkEmployee 2 "Bo" "EEE" 1 4 250 2] with
     | Ok h' => Some h' | Raise _ => None end)
  = Some [go_lin; mkEmployee 2 "Bo" "EEE" 1 4 250 2].
Proof. reflexivity. Qed.

(** * Further properties of the searches *)

(** ** Search by name *)

Lemma search_by_name_fold (keep : Employee -> bool) (l matches : list Employee)
    (checked : list (Z * string)) :
  fold_left
    (fun (acc : list Employee * list (Z * string)) slot =>
       let checked := snd acc ++ [(id slot, name slot)] in
       if keep slot then (fst acc ++ [slot], checked) else (fst acc, checked))
    l (matches, checked)
  = (matches ++ List.filter keep l, checked ++ map (fun r => (id r, name r)) l).
Proof.
  revert matches checked. induction l as [|x l IH]; intros matches checked; cbn.
  - rewrite !app_nil_r. reflexivity.
  - destruct (keep x); cbn; rewrite IH, <- !app_assoc; reflexivity.
Qed.

Lemma search_by_name_filter {T : Text} (h : HashTable.t) (query : string) :
  search_by_name h query
  = (List.filter (fun r => contains (lower (strip query)) (lower (name r)))
       (HashTable.flatten h),
     map (fun r => (id r, name r)) (HashTable.flatten h)).
Proof.
  unfold search_by_name. cbv zeta.
  rewrite (search_by_name_fold
             (fun r => contains (lower (strip query)) (lower (name r)))).
  reflexivity.
Qed.

(** X13: [search_by_name] returns, in snapshot order, exactly the records
    in whose name the query, with the whitespace around it removed, occurs
    when letter case is ignored, that is, once [lower()] is applied to both;
    its trace lists the id and name of every record of the snapshot, in
    order, whether it matched or not. *)
Theorem search_by_name_scans {T : Text} (h : HashTable.t) (query : string) :
  exists keep : Employee -> bool,
    fst (search_by_name h query) = List.filter keep (HashTable.flatten h) /\
    (forall r, keep r = true <-> ci_substring (strip query) (name r)) /\
    snd (search_by_name h query)
    = map (fun r => (id r, name r)) (HashTable.flatten h).
Proof.
  exists (fun r => contains (lower (strip query)) (lower (name r))).
  rewrite search_by_name_filter. cbn [fst snd].
  split; [reflexivity|]. split; [|reflexivity].
  intros r. unfold ci_substring. apply contains_spec.
Qed.

Example search_by_name_go :
  search_by_name table_staff " GO " = ([go_lin], [(1, "Go Lin"%string); (2, "Ann"%string)]).
Proof. reflexivity. Qed.

Lemma dynamic_search_as_filter {T : Text} (h : HashTable.t) (args : gmap string string) :
  api_dynamic_search h args
  = List.filter
      (fun r =>
         (is_empty (lower (strip (args_get args "id")))
          || contains (lower (strip (args_get args "id"))) (lower (str_of_int (id r))))
         && (is_empty (lower (strip (args_get args "name")))
             || contains (lower (strip (args_get args "name"))) (lower (name r)))
         && (is_empty (lower (strip (args_get args "department")))
             || contains (lower (strip (args_get args "department")))
                  (lower (department r))))
      (HashTable.flatten h).
Proof.
  unfold api_dynamic_search. cbv zeta. rewrite fold_left_append_filter. reflexivity.
Qed.

(** X14: the dynamic search with a name query and neither an id nor a
    department query returns the matches of [search_by_name] for that
    query. *)
Theorem dynamic_search_name_only {T : Text} (h : HashTable.t)
    (args : gmap string string) (query : string) :
  args !! "id"%string = None ->
  args !! "department"%string = None ->
  args !! "name"%string = Some query ->
  api_dynamic_search h args = fst (search_by_name h query).
Proof.
  intros Hid Hdept Hname.
  rewrite dynamic_search_as_filter, search_by_name_filter. cbn [fst].
  unfold args_get. rewrite Hid, Hdept, Hname. cbv [default from_option Datatypes.id].
  apply List.filter_ext. intros r.
  rewrite strip_empty, lower_empty.
  cbn [is_empty orb andb]. rewrite andb_true_r.
  destruct (is_empty (lower (strip query))) eqn:He; [|reflexivity].
  cbn [orb]. symmetry. apply contains_empty. exact He.
Qed.

Lemma dynamic_search_name_only_witness :
  ({[ "name"%string := "an"%string ]} : gmap string string) !! "id"%string = None /\
  ({[ "name"%string := "an"%string ]} : gmap string string) !! "department"%string = None /\
  ({[ "name"%string := "an"%string ]} : gmap string string) !! "name"%string
  = Some "an"%string /\
  api_dynamic_search table_staff {[ "name"%string := "an"%string ]}
  = fst (search_by_name table_staff "an").
Proof.
  split; [reflexivity|]. split; [reflexivity|]. split; [reflexivity|].
  apply (dynamic_search_name_only table_staff {[ "name"%string := "an"%string ]} "an");
    reflexivity.
Defined.

Lemma filter_all {A : Type} (keep : A -> bool) (l : list A) :
  (forall x, keep x = true) -> List.filter keep l = l.
Proof.
  intros Hall. induction l as [|x l IH]; [reflexivity|].
  cbn. rewrite Hall, IH. reflexivity.
Qed.

(** X15: when each of the three queries is absent, empty or made of
    whitespace only, the dynamic search returns the whole snapshot, as
    [view_all] does. *)
Theorem dynamic_search_blank {T : Text} (h : HashTable.t) (args : gmap string string) :
  strip (args_get args "id") = EmptyString ->
  strip (args_get args "name") = EmptyString ->
  strip (args_get args "department") = EmptyString ->
  api_dynamic_search h args = fst (view_all h).
Proof.
  intros Hid Hname Hdept. rewrite dynamic_search_as_filter, Hid, Hname, Hdept.
  rewrite !lower_empty. apply filter_all. intros r. reflexivity.
Qed.

Lemma dynamic_search_blank_witness :
  strip (args_get {[ "name"%string := "  "%string ]} "id") = EmptyString /\
  strip (args_get {[ "name"%string := "  "%string ]} "name") = EmptyString /\
  strip (args_get {[ "name"%string := "  "%string ]} "department") = EmptyString /\
  api_dynamic_search table_staff {[ "name"%string := "  "%string ]}
  = fst (view_all table_staff).
Proof.
  split; [reflexivity|]. split; [reflexivity|]. split; [reflexivity|].
  apply (dynamic_search_blank table_staff {[ "name"%string := "  "%string ]});
    reflexivity.
Defined.

(** ** Search by id *)

(** X16: on a reachable table of capacity above zero, [api_search_id]
    answers 200 with the record when a record of the id is stored, and 404
    when none is; in both cases the body carries the trace of [get]. *)
Theorem api_search_id_status (h : HashTable.t) (emp_id : Z) :
  reachable h -> 0 < HashTable.size h ->
  exists result trace, HashTable.get h emp_id = Ok (result, trace) /\
    (forall s, stored h s -> id s = emp_id ->
       api_search_id h emp_id = Ok (IdFound trace s, 200)) /\
    ((forall s, stored h s -> id s <> emp_id) ->
       api_search_id h emp_id = Ok (IdNotFound trace, 404)).
Proof.
  intros Hreach Hn. destruct (reachable_invariant h Hreach) as [Hwf Hfind].
  destruct (get_stored_iff h emp_id Hwf Hfind Hn) as [result [trace [Hget Hiff]]].
  exists result, trace. split; [exact Hget|].
  unfold api_search_id, search_by_id. rewrite Hget. cbn [bind fst snd]. split.
  - intros s Hs Hid. destruct (Hiff s) as [_ Hback].
    rewrite (Hback (conj Hid Hs)). reflexivity.
  - intros Habsent. destruct result as [s|]; [exfalso|reflexivity].
    destruct (Hiff s) as [Hto _]. destruct (Hto eq_refl) as [Hid Hs].
    exact (Habsent s Hs Hid).
Qed.

Lemma api_search_id_status_witness :
  reachable table_2_7_12 /\ 0 < HashTable.size table_2_7_12 /\
  exists result trace, HashTable.get table_2_7_12 9 = Ok (result, trace) /\
    (forall s, stored table_2_7_12 s -> id s = 9 ->
       api_search_id table_2_7_12 9 = Ok (IdFound trace s, 200)) /\
    ((forall s, stored table_2_7_12 s -> id s <> 9) ->
       api_search_id table_2_7_12 9 = Ok (IdNotFound trace, 404)).
Proof.
  split; [exact table_2_7_12_reachable|]. split; [reflexivity|].
  apply (api_search_id_status table_2_7_12 9);
    [exact table_2_7_12_reachable|reflexivity].
Defined.

Example api_search_id_missing :
  api_search_id table_2_7_12 9 = Ok (IdNotFound [(4, Some (emp 12)); (0, None)], 404).
Proof. reflexivity. Qed.

(** X17: [api_search_name] answers 404 exactly when no record of the
    snapshot has the trimmed query in its name, letter case ignored as
    [lower()] does, and 200 with the matches otherwise.  An empty query matches every record, so it is answered with
    404 only when the table is empty. *)
Theorem api_search_name_status {T : Text} (h : HashTable.t) (query : string) :
  (snd (api_search_name h query) = 404 <->
   forall r, In r (HashTable.flatten h) -> ~ ci_substring (strip query) (name r)) /\
  (snd (api_search_name h query) = 404 \/
   api_search_name h query
   = (NameFound (snd (search_by_name h query)) (fst (search_by_name h query)), 200)) /\
  (strip query = EmptyString ->
   (snd (api_search_name h query) = 404 <-> HashTable.flatten h = [])).
Proof.
  unfold api_search_name. cbv zeta. rewrite search_by_name_filter. cbn [fst snd].
  set (keep := fun r => contains (lower (strip query)) (lower (name r))).
  assert (forall r, keep r = true <-> ci_substring (strip query) (name r)) as Hkeep.
  { intros r. unfold keep, ci_substring. apply contains_spec. }
  split; [|split].
  - destruct (List.filter keep (HashTable.flatten h)) as [|x l] eqn:Hf; cbn [snd].
    + split; [intros _|reflexivity]. intros r Hr Hsub. apply Hkeep in Hsub.
      assert (In r (List.filter keep (HashTable.flatten h))) as Hin
        by (apply filter_In; split; assumption).
      rewrite Hf in Hin. exact Hin.
    + split; [discriminate|]. intros Hnone. exfalso.
      assert (In x (List.filter keep (HashTable.flatten h))) as Hin
        by (rewrite Hf; left; reflexivity).
      apply filter_In in Hin. destruct Hin as [Hin Hx].
      apply (Hnone x Hin). apply Hkeep. exact Hx.
  - destruct (List.filter keep (HashTable.flatten h)); [left|right]; reflexivity.
  - intros Hblank. rewrite filter_all.
    + destruct (HashTable.flatten h); cbn [snd]; split; congruence.
    + intros r. unfold keep. rewrite Hblank, lower_empty.
      destruct (lower (name r)); reflexivity.
Qed.

(** * Further properties of sorting and filtering *)

Section StableSortUnique.

Context {A : Type}.
Variable key : A -> Z.

Lemma filter_key_head (x : A) (l : list A) :
  List.filter (fun a => key a =? key x) (x :: l)
  = x :: List.filter (fun a => key a =? key x) l.
Proof. cbn. rewrite Z.eqb_refl. reflexivity. Qed.

Lemma sorted_head_least (x y : A) (l : list A) :
  StronglySorted (fun a b => key a <= key b) (y :: l) ->
  In x (y :: l) -> key y <= key x.
Proof.
  intros Hs Hin. apply StronglySorted_inv in Hs. destruct Hs as [_ Hy].
  destruct Hin as [->|Hin]; [lia|].
  rewrite List.Forall_forall in Hy. apply Hy. exact Hin.
Qed.

(** A list sorted by key is determined by the sublists of its elements of
    each key. *)
Lemma sorted_stable_unique (l1 l2 : list A) :
  StronglySorted (fun a b => key a <= key b) l1 ->
  StronglySorted (fun a b => key a <= key b) l2 ->
  (forall p, List.filter (fun a => key a =? p) l1
             = List.filter (fun a => key a =? p) l2) ->
  l1 = l2.
Proof.
  revert l2. induction l1 as [|x l1 IH]; intros l2 Hs1 Hs2 Hf.
  - destruct l2 as [|y l2]; [reflexivity|].
    specialize (Hf (key y)). rewrite filter_key_head in Hf. discriminate.
  - destruct l2 as [|y l2].
    { specialize (Hf (key x)). rewrite filter_key_head in Hf. discriminate. }
    assert (key x = key y) as Hxy.
    { assert (In x (y :: l2)) as Hx.
      { apply (filter_In (fun a => key a =? key x)). rewrite <- Hf, filter_key_head.
        left. reflexivity. }
      assert (In y (x :: l1)) as Hy.
      { apply (filter_In (fun a => key a =? key y)). rewrite Hf, filter_key_head.
        left. reflexivity. }
      pose proof (sorted_head_least x y l2 Hs2 Hx).
      pose proof (sorted_head_least y x l1 Hs1 Hy). lia. }
    pose proof (Hf (key x)) as Hfx. rewrite filter_key_head in Hfx.
    rewrite Hxy in Hfx. rewrite filter_key_head in Hfx.
    injection Hfx as Heq Htail. subst y. f_equal.
    apply StronglySorted_inv in Hs1, Hs2.
    apply IH; [apply Hs1|apply Hs2|].
    intros p. destruct (Z.eq_dec p (key x)) as [->|Hne]; [exact Htail|].
    specialize (Hf p). cbn in Hf.
    destruct (Z.eqb_spec (key x) p); [congruence|exact Hf].
Qed.

Lemma stable_sort_of_sorted (l : list A) :
  StronglySorted (fun a b => key a <= key b) l -> stable_sort key l = l.
Proof.
  intros Hs. apply sorted_stable_unique; [apply stable_sort_sorted|exact Hs|].
  intros p. apply (filter_stable_sort key p l).
Qed.

Lemma sorted_rev_back (l : list A) :
  StronglySorted (fun a b => key b <= key a) l ->
  StronglySorted (fun a b => key a <= key b) (rev l).
Proof. intros Hs. apply (sorted_rev (fun a b => key b <= key a)). exact Hs. Qed.

Lemma py_sorted_of_sorted (l : list A) (reverse : bool) :
  StronglySorted
    (fun a b => if reverse then key b <= key a else key a <= key b) l ->
  py_sorted l key reverse = l.
Proof.
  unfold py_sorted. destruct reverse; intros Hs.
  - rewrite stable_sort_of_sorted by (apply sorted_rev_back; exact Hs).
    apply rev_involutive.
  - apply stable_sort_of_sorted. exact Hs.
Qed.

Lemma py_sorted_same_keys (l1 l2 : list A) (reverse : bool) :
  (forall p, List.filter (fun a => key a =? p) l1
             = List.filter (fun a => key a =? p) l2) ->
  py_sorted l1 key reverse = py_sorted l2 key reverse.
Proof.
  intros Hf. unfold py_sorted. destruct reverse.
  - f_equal. apply sorted_stable_unique; try apply stable_sort_sorted.
    intros p. rewrite !(filter_stable_sort key p), !List.filter_rev, Hf. reflexivity.
  - apply sorted_stable_unique; try apply stable_sort_sorted.
    intros p. rewrite !(filter_stable_sort key p). apply Hf.
Qed.

Lemma sorted_filter (R : A -> A -> Prop) (keep : A -> bool) (l : list A) :
  StronglySorted R l -> StronglySorted R (List.filter keep l).
Proof.
  induction 1 as [|x l Hs IH Hx]; cbn; [constructor|].
  destruct (keep x); [|exact IH]. constructor; [exact IH|].
  rewrite List.Forall_forall in *. intros y Hy. apply Hx.
  apply filter_In in Hy. apply Hy.
Qed.

Lemma filter_filter_comm (f g : A -> bool) (l : list A) :
  List.filter f (List.filter g l) = List.filter g (List.filter f l).
Proof.
  induction l as [|x l IH]; [reflexivity|]. cbn.
  destruct (f x) eqn:Hfx, (g x) eqn:Hgx; cbn; rewrite ?Hfx, ?Hgx, IH; reflexivity.
Qed.

Lemma stable_sort_filter (keep : A -> bool) (l : list A) :
  stable_sort key (List.filter keep l) = List.filter keep (stable_sort key l).
Proof.
  apply sorted_stable_unique;
    [apply stable_sort_sorted|apply sorted_filter, stable_sort_sorted|].
  intros p. rewrite (filter_stable_sort key p).
  rewrite (filter_filter_comm (fun a => key a =? p) keep (stable_sort key l)).
  rewrite (filter_stable_sort key p). apply filter_filter_comm.
Qed.

Lemma py_sorted_filter (keep : A -> bool) (l : list A) (reverse : bool) :
  py_sorted (List.filter keep l) key reverse
  = List.filter keep (py_sorted l key reverse).
Proof.
  unfold py_sorted. destruct reverse; [|apply stable_sort_filter].
  rewrite (List.filter_rev keep (stable_sort key (rev l))). f_equal.
  rewrite <- List.filter_rev. apply stable_sort_filter.
Qed.

End StableSortUnique.

(** X18: a list that is already in ascending order of percentage is
    returned unchanged by the ascending sort, and one in descending order
    by the descending sort, ties included. *)
Theorem sort_sorted_unchanged (records : list Employee) :
  (StronglySorted
     (fun a b => attendance_percentage a <= attendance_percentage b) records ->
   sort_employees_by_percentage records "asc" = records) /\
  (StronglySorted
     (fun a b => attendance_percentage b <= attendance_percentage a) records ->
   sort_employees_by_percentage records "desc" = records).
Proof.
  unfold sort_employees_by_percentage. cbn [String.eqb]. split; intros Hs.
  - apply (py_sorted_of_sorted attendance_percentage records false). exact Hs.
  - apply (py_sorted_of_sorted attendance_percentage records true). exact Hs.
Qed.

(** X19: sorting a list that was sorted before, in either direction, gives
    what sorting the original list gives; in particular sorting twice in
    the same direction changes nothing. *)
Theorem sort_after_sort (records : list Employee) (first second : string) :
  sort_employees_by_percentage (sort_employees_by_percentage records first) second
  = sort_employees_by_percentage records second.
Proof.
  unfold sort_employees_by_percentage. cbv zeta.
  apply py_sorted_same_keys. intros p. apply py_sorted_stable.
Qed.

Example sort_desc_after_asc :
  map id (sort_employees_by_percentage
            (sort_employees_by_percentage [go_lin; ann; emp 5; emp 6] "asc") "desc")
  = [1; 2; 5; 6].
Proof. reflexivity. Qed.

(** X20: [api_sort] reads the order without regard to letter case.  For
    [asc] and [desc] it answers 200 with the snapshot sorted that way, which
    is a permutation of the snapshot; for every other order it answers 400
    with an error message and no records. *)
Theorem api_sort_orders {T : Text} (h : HashTable.t) (order : string) :
  (lower order = "asc"%string ->
   api_sort h order
   = (SortOk (sort_employees_by_percentage (HashTable.flatten h) "asc"), 200)) /\
  (lower order = "desc"%string ->
   api_sort h order
   = (SortOk (sort_employees_by_percentage (HashTable.flatten h) "desc"), 200)) /\
  (lower order <> "asc"%string -> lower order <> "desc"%string ->
   api_sort h order = (SortError "order must be 'asc' or 'desc'", 400)) /\
  (forall out, api_sort h order = (SortOk out, 200) ->
   Permutation out (HashTable.flatten h)).
Proof.
  unfold api_sort. cbv zeta. split; [|split; [|split]].
  - intros ->. reflexivity.
  - intros ->. reflexivity.
  - intros Hasc Hdesc.
    destruct (String.eqb_spec (lower order) "asc"); [contradiction|].
    destruct (String.eqb_spec (lower order) "desc"); [contradiction|]. reflexivity.
  - intros out Hout.
    destruct (negb (String.eqb (lower order) "asc" || String.eqb (lower order) "desc"));
      [discriminate|].
    injection Hout as <-. unfold sort_employees_by_percentage. apply py_sorted_perm.
Qed.

Example api_sort_upper_case :
  api_sort table_staff "DESC" = (SortOk [go_lin; ann], 200).
Proof. reflexivity. Qed.

Example api_sort_rejects :
  api_sort table_staff "up" = (SortError "order must be 'asc' or 'desc'", 400).
Proof. reflexivity. Qed.

Lemma filter_filter_implies {A : Type} (f g : A -> bool) (l : list A) :
  (forall x, g x = true -> f x = true) ->
  List.filter g (List.filter f l) = List.filter g l.
Proof.
  intros Himp. induction l as [|x l IH]; [reflexivity|]. cbn.
  destruct (f x) eqn:Hf; cbn.
  - rewrite IH. reflexivity.
  - destruct (g x) eqn:Hg; [|exact IH]. rewrite (Himp x Hg) in Hf. discriminate.
Qed.

(** X21: [api_filter] answers 200 with the records of the snapshot whose
    percentage is at least the threshold, and only those.  Raising the
    threshold narrows the answer: the answer for a higher threshold is the
    answer for the lower one, filtered again. *)
Theorem api_filter_threshold (h : HashTable.t) (percent : Z) :
  snd (api_filter h percent) = 200 /\
  (forall r, In r (fst (api_filter h percent)) <->
     In r (HashTable.flatten h) /\ 10 * percent <= attendance_percentage r) /\
  (forall higher, percent <= higher ->
     fst (api_filter h higher)
     = List.filter (fun r => 10 * higher <=? attendance_percentage r)
         (fst (api_filter h percent))).
Proof.
  unfold api_filter. cbn [fst snd]. split; [reflexivity|]. split.
  - intros r. rewrite filter_In, Z.leb_le. reflexivity.
  - intros higher Hle. symmetry. apply filter_filter_implies.
    intros r Hr. apply Z.leb_le in Hr. apply Z.leb_le. lia.
Qed.

Example api_filter_60 : api_filter table_staff 60 = ([go_lin], 200).
Proof. reflexivity. Qed.

(** X22: filtering by a threshold and sorting commute: sorting the records
    that [api_filter] returns gives the sorted snapshot with the records
    below the threshold removed. *)
Theorem sort_of_filtered (h : HashTable.t) (percent : Z) (order : string) :
  sort_employees_by_percentage (fst (api_filter h percent)) order
  = List.filter (fun r => 10 * percent <=? attendance_percentage r)
      (sort_employees_by_percentage (HashTable.flatten h) order).
Proof.
  unfold api_filter, sort_employees_by_percentage. cbn [fst]. apply py_sorted_filter.
Qed.

(** * Further properties of record processing *)

Lemma insert_all_app (l1 l2 : list Employee) (h : HashTable.t) :
  insert_all h (l1 ++ l2) = (let* h1 := insert_all h l1 in insert_all h1 l2).
Proof.
  revert h. induction l1 as [|r l1 IH]; intros h; [reflexivity|].
  cbn [app insert_all]. destruct (HashTable.insert h r) as [out|e]; [|reflexivity].
  cbn [bind]. apply IH.
Qed.

Lemma insert_all_ok_reachable (rs : list Employee) (h h' : HashTable.t) :
  reachable h -> insert_all h rs = Ok h' -> reachable h'.
Proof.
  revert h. induction rs as [|r rs IH]; intros h Hreach Hall.
  - injection Hall as <-. exact Hreach.
  - cbn [insert_all] in Hall. apply bind_ok in Hall.
    destruct Hall as [[h1 pos] [Hins Hall]]. cbn [fst] in Hall.
    apply (IH h1); [|exact Hall]. exact (reach_insert h h1 r pos Hreach Hins).
Qed.

Section ProcessReplay.

Context {T : Text}.
Variable percentage : Z -> Z -> res Z.

(** The percentage of a processed record is the one computed from its two
    counts, and 0 when the total of days is not positive. *)
Let percent_ok (r : Employee) : Prop :=
  if total_days r >? 0
  then percentage (attendance r) (total_days r) = Ok (attendance_percentage r)
  else attendance_percentage r = 0.

Lemma process_loop_replay (raw_list : list (gmap string pyval)) :
  forall (table table' : HashTable.t) (processed out : list Employee),
    process_loop percentage raw_list table processed = Ok (table', out) ->
    exists new, out = processed ++ new /\
      insert_all table new = Ok table' /\
      (length new <= length raw_list)%nat /\
      Forall percent_ok new.
Proof.
  induction raw_list as [|rec rest IH]; intros table table' processed out Hloop.
  - cbn in Hloop. injection Hloop as <- <-. exists [].
    rewrite app_nil_r. repeat split; [cbn; lia|constructor].
  - cbn [process_loop] in Hloop.
    destruct (parse_row rec) as [[[[[emp_id nm] dept] att] days]|e].
    + apply bind_ok in Hloop. destruct Hloop as [p [Hp Hloop]].
      apply bind_ok in Hloop. destruct Hloop as [hash_idx [_ Hloop]].
      apply bind_ok in Hloop. destruct Hloop as [ins [Hins Hloop]].
      destruct (IH _ _ _ _ Hloop) as [new [Hout [Hall [Hlen Hpct]]]].
      eexists (_ :: new). split; [rewrite Hout, <- app_assoc; reflexivity|].
      split; [cbn [insert_all]; rewrite Hins; exact Hall|].
      split; [cbn; lia|]. constructor; [|exact Hpct].
      unfold percent_ok. cbn. destruct (days >? 0); [exact Hp|].
      injection Hp as <-. reflexivity.
    + destruct (IH _ _ _ _ Hloop) as [new [Hout [Hall [Hlen Hpct]]]].
      exists new. repeat split; try assumption. cbn. lia.
Qed.

Lemma replay_of_process_records (raw_list : list (gmap string pyval)) (st st' : Store)
    (processed : list Employee) :
  process_records percentage raw_list st = Ok (processed, st') ->
  insert_all (hash_table st) processed = Ok (hash_table st') /\
  database st' = HashTable.flatten (hash_table st') /\
  (length processed <= length raw_list)%nat /\
  Forall percent_ok processed.
Proof.
  unfold process_records. intros Hrun. apply bind_ok in Hrun.
  destruct Hrun as [[table' out] [Hloop Hrun]]. cbn [fst snd] in Hrun.
  injection Hrun as <- <-. cbn.
  destruct (process_loop_replay _ _ _ _ _ Hloop) as [new [Hout [Hall [Hlen Hpct]]]].
  cbn in Hout. subst out. repeat split; assumption.
Qed.

(** X23: when [process_records] returns, the table it leaves is the table
    obtained by inserting the returned records, one after the other, into
    the table it started from; the saved database is the snapshot of that
    table; and no more records are returned than rows were given. *)
Theorem process_records_replay (raw_list : list (gmap string pyval)) (st st' : Store)
    (processed : list Employee) :
  process_records percentage raw_list st = Ok (processed, st') ->
  insert_all (hash_table st) processed = Ok (hash_table st') /\
  database st' = HashTable.flatten (hash_table st') /\
  (length processed <= length raw_list)%nat.
Proof.
  intros Hrun.
  destruct (replay_of_process_records _ _ _ _ Hrun) as [Hall [Hdb [Hlen _]]].
  repeat split; assumption.
Qed.

Lemma process_loop_zero (raw_list : list (gmap string pyval)) :
  forall (table : HashTable.t) (processed : list Employee),
    wf table -> 0 < HashTable.size table ->
    (forall rec emp_id nm dept att days,
       In rec raw_list -> parse_row rec = Ok (emp_id, nm, dept, att, days) ->
       days <= 0) ->
    exists table' new,
      process_loop percentage raw_list table processed = Ok (table', processed ++ new) /\
      Forall (fun r => attendance_percentage r = 0) new /\
      length new = length (List.filter kept_row raw_list).
Proof.
  induction raw_list as [|rec rest IH]; intros table processed Hwf Hn Hzero.
  - exists table, []. cbn. rewrite app_nil_r. repeat split. constructor.
  - assert (forall rec emp_id nm dept att days,
              In rec rest -> parse_row rec = Ok (emp_id, nm, dept, att, days) ->
              days <= 0) as Hrest.
    { intros r i nm d a t Hin. apply (Hzero r i nm d a t). right. exact Hin. }
    cbn [process_loop List.filter]. unfold kept_row at 1.
    destruct (parse_row rec) as [[[[[emp_id nm] dept] att] days]|e] eqn:Hparse.
    + pose proof (Hzero rec emp_id nm dept att days (or_introl eq_refl) Hparse) as Hdays.
      destruct (Z.gtb_spec days 0) as [Hpos|_]; [lia|].
      cbn [bind]. rewrite py_mod_ok by (unfold HASH_TABLE_SIZE; lia). cbn [bind].
      set (record := {| id := emp_id; name := nm; department := dept;
                        attendance := att; total_days := days;
                        attendance_percentage := 0;
                        hash_index := emp_id mod HASH_TABLE_SIZE |}).
      destruct (insert_total table record Hwf Hn) as [h' [pos [-> [Hwf' Hsize]]]].
      cbn [bind fst].
      destruct (IH h' (processed ++ [record]) Hwf' ltac:(lia) Hrest)
        as [table' [new [Hloop [Hpct Hlen]]]].
      exists table', (record :: new). split; [rewrite Hloop, <- app_assoc; reflexivity|].
      split; [constructor; [reflexivity|exact Hpct]|]. cbn. rewrite Hlen. reflexivity.
    + apply IH; assumption.
Qed.

(** X24: for a batch in which every row that can be read has a total of
    days that is zero or negative, [process_records] returns whatever the
    percentage computation would do, even if it raised on every call: the
    division is not evaluated for such rows.  Every returned record has the
    percentage 0, and one record is returned for each row that can be
    read. *)
Theorem zero_total_days_no_division (raw_list : list (gmap string pyval)) (st : Store) :
  wf (hash_table st) -> 0 < HashTable.size (hash_table st) ->
  (forall rec emp_id nm dept att days,
     In rec raw_list -> parse_row rec = Ok (emp_id, nm, dept, att, days) ->
     days <= 0) ->
  exists processed st',
    process_records percentage raw_list st = Ok (processed, st') /\
    Forall (fun r => attendance_percentage r = 0) processed /\
    length processed = length (List.filter kept_row raw_list).
Proof.
  intros Hwf Hn Hzero. unfold process_records.
  destruct (process_loop_zero raw_list (hash_table st) [] Hwf Hn Hzero)
    as [table' [new [-> [Hpct Hlen]]]].
  cbn [bind fst snd app]. eexists _, _. split; [reflexivity|]. split; assumption.
Qed.

(** X25: when the table was reachable before, it is reachable after
    [process_records], and the saved database holds no two records with the
    same id. *)
Theorem process_records_distinct_ids (raw_list : list (gmap string pyval))
    (st st' : Store) (processed : list Employee) :
  reachable (hash_table st) ->
  process_records percentage raw_list st = Ok (processed, st') ->
  reachable (hash_table st') /\ NoDup (map id (database st')).
Proof.
  intros Hreach Hrun.
  destruct (replay_of_process_records _ _ _ _ Hrun) as [Hall [Hdb _]].
  pose proof (insert_all_ok_reachable _ _ _ Hreach Hall) as Hreach'.
  split; [exact Hreach'|]. rewrite Hdb.
  destruct (reachable_invariant _ Hreach') as [Hwf Hfind].
  apply unique_ids_NoDup. apply findable_unique; assumption.
Qed.

(** X26: after a batch, looking up the id of the last record that
    [process_records] returned finds that record, whatever the table held
    and however full it was. *)
Theorem last_processed_found (raw_list : list (gmap string pyval)) (st st' : Store)
    (processed : list Employee) (r : Employee) :
  reachable (hash_table st) ->
  process_records percentage raw_list st = Ok (processed ++ [r], st') ->
  exists trace, HashTable.get (hash_table st') (id r) = Ok (Some r, trace).
Proof.
  intros Hreach Hrun.
  destruct (replay_of_process_records _ _ _ _ Hrun) as [Hall _].
  rewrite insert_all_app in Hall. apply bind_ok in Hall.
  destruct Hall as [h1 [Hfirst Hlast]].
  pose proof (insert_all_ok_reachable _ _ _ Hreach Hfirst) as Hreach1.
  cbn [insert_all] in Hlast. apply bind_ok in Hlast.
  destruct Hlast as [[h2 pos] [Hins Hlast]]. cbn [fst] in Hlast. injection Hlast as <-.
  destruct (insert_reachable_invariant h1 h2 r pos Hreach1 Hins)
    as [Hwf [_ [Hn [Hwf' [Hfind' [-> Hpos]]]]]].
  destruct (get_found_at _ _ r Hwf' Hfind' (store_same h1 pos r Hwf Hpos))
    as [i [_ [_ Hget]]].
  eexists. exact Hget.
Qed.

(** X27: when the batch has no more rows than the table has free slots,
    the table holds afterwards, for every id among the returned records, the
    last returned record of that id, and it keeps every record of another id
    that it held before. *)
Theorem process_records_upsert (raw_list : list (gmap string pyval)) (st st' : Store)
    (processed : list Employee) :
  reachable (hash_table st) ->
  (occupied (hash_table st) + length raw_list
   <= length (HashTable.table (hash_table st)))%nat ->
  process_records percentage raw_list st = Ok (processed, st') ->
  forall s, stored (hash_table st') s <->
    last_with_id processed (id s) = Some s \/
    (last_with_id processed (id s) = None /\ stored (hash_table st) s).
Proof.
  intros Hreach Hroom Hrun.
  destruct (replay_of_process_records _ _ _ _ Hrun) as [Hall [_ [Hlen _]]].
  destruct (insert_all_last_wins processed (hash_table st) Hreach ltac:(lia))
    as [h' [Hall' Hlast]].
  rewrite Hall in Hall'. injection Hall' as <-. exact Hlast.
Qed.

End ProcessReplay.

Lemma store_empty_reachable : reachable (hash_table store_empty).
Proof. apply reach_new. Defined.

Lemma batch_runs :
  process_records exact_percentage batch_rows store_empty
  = Ok (batch_processed, store_after_batch).
Proof. vm_compute. reflexivity. Defined.

Lemma process_records_replay_witness :
  process_records exact_percentage batch_rows store_empty
  = Ok (batch_processed, store_after_batch) /\
  insert_all (hash_table store_empty) batch_processed
  = Ok (hash_table store_after_batch) /\
  database store_after_batch = HashTable.flatten (hash_table store_after_batch) /\
  (length batch_processed <= length batch_rows)%nat.
Proof.
  split; [exact batch_runs|].
  apply (process_records_replay exact_percentage batch_rows store_empty). exact batch_runs.
Defined.

Lemma zero_total_days_no_division_witness :
  wf (hash_table store_empty) /\ 0 < HashTable.size (hash_table store_empty) /\
  (forall rec emp_id nm dept att days,
     In rec [row_id_only; row_bad_attendance; row_zero_days] ->
     parse_row rec = Ok (emp_id, nm, dept, att, days) ->
     days <= 0) /\
  exists processed st',
    process_records (fun _ _ => Raise ZeroDivisionError)
      [row_id_only; row_bad_attendance; row_zero_days] store_empty
    = Ok (processed, st') /\
    Forall (fun r => attendance_percentage r = 0) processed /\
    length processed
    = length (List.filter kept_row [row_id_only; row_bad_attendance; row_zero_days]).
Proof.
  assert (forall rec emp_id nm dept att days,
            In rec [row_id_only; row_bad_attendance; row_zero_days] ->
            parse_row rec = Ok (emp_id, nm, dept, att, days) ->
            days <= 0) as Hzero.
  { intros rec emp_id nm dept att days [<-|[<-|[<-|[]]]] Hparse;
      vm_compute in Hparse; try discriminate Hparse;
      injection Hparse as <- <- <- <- <-; lia. }
  split; [reflexivity|]. split; [reflexivity|]. split; [exact Hzero|].
  apply (zero_total_days_no_division (fun _ _ => Raise ZeroDivisionError)
           [row_id_only; row_bad_attendance; row_zero_days] store_empty);
    [reflexivity|reflexivity|exact Hzero].
Defined.

(** Zero days in total: the percentage is 0 and nothing is divided. *)
Example process_zero_days :
  exists st',
    process_records (fun _ _ => Raise ZeroDivisionError) [row_zero_days] store_empty
    = Ok ([mkEmployee 3 "Cy" "" 5 0 0 3], st').
Proof. eexists. vm_compute. reflexivity. Qed.

Lemma process_records_distinct_ids_witness :
  reachable (hash_table store_empty) /\
  process_records exact_percentage batch_rows store_empty
  = Ok (batch_processed, store_after_batch) /\
  reachable (hash_table store_after_batch) /\
  NoDup (map id (database store_after_batch)).
Proof.
  split; [exact store_empty_reachable|]. split; [exact batch_runs|].
  apply (process_records_distinct_ids exact_percentage batch_rows store_empty
           store_after_batch batch_processed);
    [exact store_empty_reachable|exact batch_runs].
Defined.

Lemma last_processed_found_witness :
  reachable (hash_table store_empty) /\
  process_records exact_percentage batch_rows store_empty
  = Ok ([emp 7] ++ [mkEmployee 2 "Ann" "CSE" 4 8 500 2], store_after_batch) /\
  exists trace,
    HashTable.get (hash_table store_after_batch) (id (mkEmployee 2 "Ann" "CSE" 4 8 500 2))
    = Ok (Some (mkEmployee 2 "Ann" "CSE" 4 8 500 2), trace).
Proof.
  split; [exact store_empty_reachable|]. split; [exact batch_runs|].
  apply (last_processed_found exact_percentage batch_rows store_empty store_after_batch
           [emp 7] (mkEmployee 2 "Ann" "CSE" 4 8 500 2));
    [exact store_empty_reachable|exact batch_runs].
Defined.

Lemma process_records_upsert_witness :
  reachable (hash_table store_empty) /\
  (occupied (hash_table store_empty) + length batch_rows
   <= length (HashTable.table (hash_table store_empty)))%nat /\
  process_records exact_percentage batch_rows store_empty
  = Ok (batch_processed, store_after_batch) /\
  forall s, stored (hash_table store_after_batch) s <->
    last_with_id batch_processed (id s) = Some s \/
    (last_with_id batch_processed (id s) = None /\ stored (hash_table store_empty) s).
Proof.
  split; [exact store_empty_reachable|]. split; [vm_compute; lia|].
  split; [exact batch_runs|].
  apply (process_records_upsert exact_percentage batch_rows store_empty
           store_after_batch batch_processed);
    [exact store_empty_reachable|vm_compute; lia|exact batch_runs].
Defined.

(** ** Restart from the saved database *)

Lemma option_ext {A : Type} (x y : option A) :
  (forall a, x = Some a <-> y = Some a) -> x = y.
Proof.
  intros Hxy. destruct x as [a|], y as [b|]; try reflexivity.
  - apply Hxy. reflexivity.
  - symmetry. apply Hxy. reflexivity.
  - apply Hxy. reflexivity.
Qed.

(** X28: rebuilding a reachable table of capacity above zero from its own
    snapshot, which is what a restart does with the saved database, returns
    a table that holds the same records, the tables on which the fallback
    fired included.  The slots may differ, but [get] returns the same result
    for every id before and after. *)
Theorem restart_recovers (h : HashTable.t) :
  reachable h -> 0 < HashTable.size h ->
  exists h', rebuild_hashtable_from_list h (HashTable.flatten h) = Ok h' /\
    Permutation (HashTable.flatten h') (HashTable.flatten h) /\
    forall emp_id, exists result trace trace',
      HashTable.get h emp_id = Ok (result, trace) /\
      HashTable.get h' emp_id = Ok (result, trace').
Proof.
  intros Hreach Hn. destruct (reachable_invariant h Hreach) as [Hwf Hfind].
  unfold rebuild_hashtable_from_list.
  change (HashTable.clear h) with (HashTable.new (HashTable.size h)).
  destruct (insert_all_fresh (HashTable.flatten h) (HashTable.new (HashTable.size h)))
    as [h' [Hall Hperm]].
  { apply new_wf. }
  { apply unique_ids_NoDup. apply findable_unique; assumption. }
  { intros r p s _ Hp. exfalso. exact (new_no_record _ p s Hp). }
  { unfold occupied. change (HashTable.new (HashTable.size h)) with (HashTable.clear h).
    rewrite clear_flatten. unfold HashTable.clear. cbn. rewrite length_replicate.
    unfold wf in Hwf. rewrite <- Hwf. apply flatten_length_le. }
  change (HashTable.new (HashTable.size h)) with (HashTable.clear h) in Hperm.
  rewrite clear_flatten in Hperm. cbn [app] in Hperm.
  exists h'. split; [exact Hall|]. split; [exact Hperm|].
  destruct (insert_all_reachable (HashTable.flatten h) (HashTable.new (HashTable.size h))
              (reach_new _) Hn) as [h2 [Hall2 [Hreach' [Hsize _]]]].
  rewrite Hall in Hall2. injection Hall2 as <-.
  destruct (reachable_invariant h' Hreach') as [Hwf' Hfind'].
  intros emp_id.
  destruct (get_stored_iff h emp_id Hwf Hfind Hn) as [res1 [tr1 [Hget1 Hiff1]]].
  destruct (get_stored_iff h' emp_id Hwf' Hfind' ltac:(cbn in Hsize; lia))
    as [res2 [tr2 [Hget2 Hiff2]]].
  exists res1, tr1, tr2. split; [exact Hget1|]. rewrite Hget2. do 2 f_equal.
  apply option_ext. intros s. rewrite Hiff1, Hiff2, <- !flatten_stored.
  split; intros [Hid Hin]; (split; [exact Hid|]).
  - apply (Permutation_in _ Hperm). exact Hin.
  - apply (Permutation_in _ (Permutation_sym Hperm)). exact Hin.
Qed.

Lemma restart_recovers_witness :
  reachable (after table_full [emp 2]) /\
  0 < HashTable.size (after table_full [emp 2]) /\
  exists h',
    rebuild_hashtable_from_list (after table_full [emp 2])
      (HashTable.flatten (after table_full [emp 2])) = Ok h' /\
    Permutation (HashTable.flatten h') (HashTable.flatten (after table_full [emp 2])) /\
    forall emp_id, exists result trace trace',
      HashTable.get (after table_full [emp 2]) emp_id = Ok (result, trace) /\
      HashTable.get h' emp_id = Ok (result, trace').
Proof.
  assert (reachable (after table_full [emp 2])) as Hreach.
  { apply runs_reachable; [|reflexivity].
    apply (runs_reachable (HashTable.new 2) [emp 0; emp 1]); [apply reach_new|reflexivity]. }
  split; [exact Hreach|]. split; [reflexivity|].
  apply (restart_recovers (after table_full [emp 2])); [exact Hreach|reflexivity].
Defined.
